(** * ETS CAN bus sniffer: event log, identifier table and bit-rate scan

    A shallow embedding of the two firmware variants of the sniffer:
    the serial program ([Module Serial], from the serial [main.cpp]) and
    the WiFi program ([Module Wifi], from [src/main_wifi.cpp]).

    Conventions of the embedding.
    - The target is the ESP32 (ILP32): [int] is 32 bits, [unsigned long]
      and [uint32_t] are 32-bit unsigned and wrap modulo [2^32]; [float]
      is IEEE-754 binary32, taken from [SpecFloat] at precision 24.
    - Globals of a program are the fields of its [State] record; every
      function takes the state and returns the new one.
    - [millis()], the frames on the bus and the result of configuring
      the controller are inputs of the functions that consult them.
    - A C array is a list of its declared length; [a[i]] is a total
      lookup and [a[i] = v] an in-place insert. *)

From Stdlib Require Import ZArith List Lia Bool ZifyNat.
From Stdlib Require Import Floats.SpecFloat.
From Stdlib Require Strings.Byte.
From stdpp Require Import base list list_numbers.

Local Open Scope Z_scope.

(** [lia] is to reason about [/], [mod] and C's [%] by constants. *)
Ltac Zify.zify_post_hook ::= Z.to_euclidean_division_equations.

(** ** Machine integers, bytes and C library routines *)

Definition UINT32_MAX : Z := 4294967295.

(** Reduction of an [unsigned long] / [uint32_t] result. *)
Definition u32 (x : Z) : Z := x mod (UINT32_MAX + 1).

Abbreviation byte := Init.Byte.byte.
Abbreviation NUL := Init.Byte.x00.

#[global] Instance byte_inhabited : Inhabited byte := populate NUL.
#[global] Instance byte_eq_dec : EqDecision byte := Strings.Byte.byte_eq_dec.

(** [memcpy(dst, src, n)] on arrays held as lists: the first [n] bytes of
    [dst] are replaced by the first [n] bytes of [src]. (The C call is
    defined only when both arrays have at least [n] bytes.) *)
Definition memcpy (dst src : list byte) (n : Z) : list byte :=
  take (Z.to_nat n) src ++ drop (Z.to_nat n) dst.

(** [memset(dst, 0, n)]. *)
Definition memset0 (dst : list byte) (n : Z) : list byte :=
  replicate (Z.to_nat n) NUL ++ drop (Z.to_nat n) dst.

(** The [n] bytes [strncpy(dst, src, n)] writes. [src] is the content of a
    NUL-terminated string, the terminator itself left implicit: running off
    the list is reading the terminator. After the first NUL the rest of
    the [n] bytes is filled with NUL. *)
Fixpoint strncpy_bytes (src : list byte) (n : nat) {struct n} : list byte :=
  match n with
  | O => []
  | S n' =>
      match src with
      | [] => replicate n NUL
      | c :: src' =>
          if decide (c = NUL) then replicate n NUL
          else c :: strncpy_bytes src' n'
      end
  end.

Definition strncpy (dst src : list byte) (n : Z) : list byte :=
  strncpy_bytes src (Z.to_nat n) ++ drop (Z.to_nat n) dst.

(** The C string held in a [char] array: the bytes before the first NUL. *)
Fixpoint cstring (a : list byte) : list byte :=
  match a with
  | [] => []
  | c :: a' => if decide (c = NUL) then [] else c :: cstring a'
  end.

(** [isspace] of the C locale: space, and the controls 0x09 to 0x0D. *)
Definition isspace (c : byte) : bool :=
  match c with
  | Init.Byte.x20 | Init.Byte.x09 | Init.Byte.x0a | Init.Byte.x0b
  | Init.Byte.x0c | Init.Byte.x0d => true
  | _ => false
  end.

Fixpoint drop_spaces (s : list byte) : list byte :=
  match s with
  | [] => []
  | c :: s' => if isspace c then drop_spaces s' else s
  end.

(** Arduino's [String::trim()]: strips the [isspace] characters at both
    ends of the string. *)
Definition trim (s : list byte) : list byte :=
  rev (drop_spaces (rev (drop_spaces s))).

(** ** Bit rates *)

Inductive can_baud_t := BAUD_125K | BAUD_250K | BAUD_500K | BAUD_1M.

#[global] Instance can_baud_inhabited : Inhabited can_baud_t := populate BAUD_250K.
#[global] Instance can_baud_eq_dec : EqDecision can_baud_t.
Proof. solve_decision. Defined.

(** The array [rates[]] of both scan routines. *)
Definition rates : list can_baud_t := [BAUD_125K; BAUD_250K; BAUD_500K; BAUD_1M].

(** ** What the controller delivers

    One iteration of a receive loop sees the interrupt pin high (nothing
    pending), or reads a frame ([readMsgBuf] returns [CAN_OK] and fills
    [rxId], [dlc] and the 8-byte [data] buffer), or fails to read one. *)

Inductive Poll :=
  | PollIdle
  | PollFrame (rxId : Z) (len : Z) (payload : list byte)
  | PollError.

(** What happens while one candidate rate is tried: whether [initCAN]
    succeeds, and the polls made before the time window closes. *)
Record RateTrial := { init_ok : bool; polls : list Poll }.

(** ** The identifier search shared by [findOrAddId] and the scan trial

    [for (int i = 0; i < n; i++) if (seen[i] == id) ...]: the index of
    the first match among [seen[i .. i+n-1]]. *)
Fixpoint find_id (seen : list Z) (id : Z) (i : Z) (n : nat) : option Z :=
  match n with
  | O => None
  | S n' =>
      if decide (seen !!! Z.to_nat i = id) then Some i
      else find_id seen id (i + 1) n'
  end.

(** ** binary32 arithmetic *)

Definition f32_of_Z (n : Z) : spec_float := binary_normalize 24 128 n 0 false.
Definition f32_div : spec_float -> spec_float -> spec_float := SFdiv 24 128.
Definition f32_mul : spec_float -> spec_float -> spec_float := SFmul 24 128.
(** [f32_gt a b] is the C comparison [a > b]. *)
Definition f32_gt (a b : spec_float) : bool := SFltb b a.
(** The literal [0.1f]: 13421773 * 2^-27. *)
Definition f32_0_1 : spec_float := S754_finite false 13421773 (-27).

(** ** One scan trial: the private identifier table

    [scanIds] and [scanIdCounts] have 64 slots. *)

Definition SCAN_IDS : Z := 64.

Record Trial := {
  scanUniqueIds : Z;
  scanMsgCount : Z;
  scanIds : list Z;
  scanIdCounts : list Z
}.

Definition trial_init : Trial :=
  {| scanUniqueIds := 0; scanMsgCount := 0;
     scanIds := replicate 64 0; scanIdCounts := replicate 64 0 |}.

(** The [CAN_OK] branch of the trial loop, the same in both programs. *)
Definition trial_frame (rxId : Z) (t : Trial) : Trial :=
  let canId := Z.land rxId 0x1FFFFFFF in
  let msgs := u32 (scanMsgCount t + 1) in
  match find_id (scanIds t) canId 0 (Z.to_nat (scanUniqueIds t)) with
  | Some i =>
      {| scanUniqueIds := scanUniqueIds t; scanMsgCount := msgs;
         scanIds := scanIds t;
         scanIdCounts :=
           <[Z.to_nat i := u32 (scanIdCounts t !!! Z.to_nat i + 1)]> (scanIdCounts t) |}
  | None =>
      if scanUniqueIds t <? SCAN_IDS then
        {| scanUniqueIds := scanUniqueIds t + 1; scanMsgCount := msgs;
           scanIds := <[Z.to_nat (scanUniqueIds t) := canId]> (scanIds t);
           scanIdCounts := <[Z.to_nat (scanUniqueIds t) := 1]> (scanIdCounts t) |}
      else
        {| scanUniqueIds := scanUniqueIds t; scanMsgCount := msgs;
           scanIds := scanIds t; scanIdCounts := scanIdCounts t |}
  end.

(** ** Scoring one trial (the same text in both programs) *)

Inductive Verdict := InitFailed | NoData | LikelyCorrect | Noise | Uncertain.

Definition repeatRate (msgCount uniqueIds : Z) : spec_float :=
  if (0 <? uniqueIds) && (0 <? msgCount)
  then f32_div (f32_of_Z msgCount) (f32_of_Z uniqueIds)
  else f32_of_Z 0.

Definition score (msgCount uniqueIds : Z) : spec_float :=
  let s := repeatRate msgCount uniqueIds in
  if 30 <? uniqueIds then f32_mul s f32_0_1 else s.

Definition verdict (msgCount uniqueIds : Z) : Verdict :=
  if msgCount =? 0 then NoData
  else if (uniqueIds <=? 20) && f32_gt (repeatRate msgCount uniqueIds) (f32_of_Z 10)
  then LikelyCorrect
  else if 30 <? uniqueIds then Noise
  else Uncertain.

(** The line reported for one candidate. [res_idList] is the list of
    [(identifier, count)] pairs, given when there are 1 to 20 of them. *)
Record ScanResult := {
  res_baud : can_baud_t;
  res_msgs : Z;
  res_ids : Z;
  res_repeat : spec_float;
  res_verdict : Verdict;
  res_idList : option (list (Z * Z))
}.

Definition trial_result (b : can_baud_t) (t : Trial) : ScanResult :=
  {| res_baud := b; res_msgs := scanMsgCount t; res_ids := scanUniqueIds t;
     res_repeat := repeatRate (scanMsgCount t) (scanUniqueIds t);
     res_verdict := verdict (scanMsgCount t) (scanUniqueIds t);
     res_idList :=
       if (0 <? scanUniqueIds t) && (scanUniqueIds t <=? 20)
       then Some (zip (take (Z.to_nat (scanUniqueIds t)) (scanIds t))
                      (take (Z.to_nat (scanUniqueIds t)) (scanIdCounts t)))
       else None |}.

Definition init_fail_result (b : can_baud_t) : ScanResult :=
  {| res_baud := b; res_msgs := 0; res_ids := 0; res_repeat := f32_of_Z 0;
     res_verdict := InitFailed; res_idList := None |}.

(** The loop variables [bestRate], [bestScore] and the report so far. *)
Record ScanAcc := {
  bestRate : Z;
  bestScore : spec_float;
  report : list ScanResult
}.

Definition scan_start : ScanAcc :=
  {| bestRate := -1; bestScore := f32_of_Z 0; report := [] |}.

Section ScanLoop.
(** [run] is the trial loop of the program at hand: the private table
    left by the polls of one window. *)
Variable run : list Poll -> Trial.

(** The body of [for (int r = 0; r < 4; r++)] at index [r], for the
    candidate [b] and what the bus does while it is tried. *)
Definition scan_body (r : Z) (b : can_baud_t) (w : RateTrial) (acc : ScanAcc)
  : ScanAcc :=
  if negb (init_ok w) then
    {| bestRate := bestRate acc; bestScore := bestScore acc;
       report := report acc ++ [init_fail_result b] |}
  else
    let t := run (polls w) in
    let s := score (scanMsgCount t) (scanUniqueIds t) in
    if f32_gt s (bestScore acc) then
      {| bestRate := r; bestScore := s;
         report := report acc ++ [trial_result b t] |}
    else
      {| bestRate := bestRate acc; bestScore := bestScore acc;
         report := report acc ++ [trial_result b t] |}.

Fixpoint scan_loop (cands : list (can_baud_t * RateTrial)) (r : Z)
    (acc : ScanAcc) : ScanAcc :=
  match cands with
  | [] => acc
  | (b, w) :: rest => scan_loop rest (r + 1) (scan_body r b w acc)
  end.

(** The whole loop over [rates], [bus b] telling what happens while the
    rate [b] is tried. *)
Definition scan_all (bus : can_baud_t -> RateTrial) : ScanAcc :=
  scan_loop (map (fun b => (b, bus b)) rates) 0 scan_start.
End ScanLoop.

Definition MAX_UNIQUE_IDS : Z := 256.

(** * The serial program *)

Module Serial.

Record State := {
  currentBaud : can_baud_t;
  messageCount : Z;
  errorCount : Z;
  startTime : Z;
  seenIds : list Z;
  idCounts : list Z;
  uniqueIdCount : Z;
  awaitingMark : bool
}.

(** The globals at start-up. *)
Definition init : State :=
  {| currentBaud := BAUD_250K; messageCount := 0; errorCount := 0;
     startTime := 0; seenIds := replicate 256 0; idCounts := replicate 256 0;
     uniqueIdCount := 0; awaitingMark := false |}.

Definition set_table (st : State) (ids counts : list Z) (n : Z) : State :=
  {| currentBaud := currentBaud st; messageCount := messageCount st;
     errorCount := errorCount st; startTime := startTime st;
     seenIds := ids; idCounts := counts; uniqueIdCount := n;
     awaitingMark := awaitingMark st |}.

(** [int findOrAddId(uint32_t id)]: the returned index (or -1) and the
    state left behind. *)
Definition findOrAddId (id : Z) (st : State) : Z * State :=
  match find_id (seenIds st) id 0 (Z.to_nat (uniqueIdCount st)) with
  | Some i =>
      (i, set_table st (seenIds st)
            (<[Z.to_nat i := u32 (idCounts st !!! Z.to_nat i + 1)]> (idCounts st))
            (uniqueIdCount st))
  | None =>
      if uniqueIdCount st <? MAX_UNIQUE_IDS then
        (uniqueIdCount st + 1 - 1,
         set_table st
           (<[Z.to_nat (uniqueIdCount st) := id]> (seenIds st))
           (<[Z.to_nat (uniqueIdCount st) := 1]> (idCounts st))
           (uniqueIdCount st + 1))
      else (-1, st)
  end.

(** [clearCounts()], called when [millis()] reads [now]. *)
Definition clearCounts (now : Z) (st : State) : State :=
  {| currentBaud := currentBaud st; messageCount := 0; errorCount := 0;
     startTime := now; seenIds := replicate 256 0; idCounts := replicate 256 0;
     uniqueIdCount := 0; awaitingMark := awaitingMark st |}.

Definition set_baud (b : can_baud_t) (st : State) : State :=
  {| currentBaud := b; messageCount := messageCount st;
     errorCount := errorCount st; startTime := startTime st;
     seenIds := seenIds st; idCounts := idCounts st;
     uniqueIdCount := uniqueIdCount st; awaitingMark := awaitingMark st |}.

(** A run of calls [findOrAddId(id)]. *)
Definition record_all (ids : list Z) (st : State) : State :=
  fold_left (fun s id => snd (findOrAddId id s)) ids st.

(** The locals of one trial of [autoScan]: the private table and the
    private error counter [scanErrCount]. *)
Record ScanTrial := { table : Trial; scanErrCount : Z }.

Definition scan_init : ScanTrial := {| table := trial_init; scanErrCount := 0 |}.

(** One iteration of [while (millis() - scanStart < 5000)]. *)
Definition trial_step (t : ScanTrial) (p : Poll) : ScanTrial :=
  match p with
  | PollIdle => t
  | PollFrame rxId _ _ =>
      {| table := trial_frame rxId (table t); scanErrCount := scanErrCount t |}
  | PollError =>
      {| table := table t; scanErrCount := u32 (scanErrCount t + 1) |}
  end.

(** The iterations of one window, from the state [t]. *)
Definition trial_from (t : ScanTrial) (ps : list Poll) : ScanTrial :=
  fold_left trial_step ps t.

Definition trial_run (ps : list Poll) : ScanTrial := trial_from scan_init ps.

(** [errRate], in percent. *)
Definition errRate (t : ScanTrial) : spec_float :=
  if 0 <? u32 (scanMsgCount (table t) + scanErrCount t)
  then f32_mul (f32_div (f32_of_Z (scanErrCount t))
                  (f32_of_Z (u32 (scanMsgCount (table t) + scanErrCount t))))
         (f32_of_Z 100)
  else f32_of_Z 0.

(** [autoScan()]: the loop, then the switch to the best rate with
    [clearCounts()], or no change when [bestRate] stayed -1. [now] is
    the clock when [clearCounts] runs. *)
Definition autoScan (now : Z) (bus : can_baud_t -> RateTrial) (st : State)
  : ScanAcc * State :=
  let acc := scan_all (fun ps => table (trial_run ps)) bus in
  if 0 <=? bestRate acc then
    (acc, clearCounts now (set_baud (rates !!! Z.to_nat (bestRate acc)) st))
  else (acc, st).

(** Step 1 of [loop()]: the receive attempt. *)
Definition receive (p : Poll) (st : State) : State :=
  match p with
  | PollIdle => st
  | PollFrame rxId _ _ =>
      let canId := Z.land rxId 0x1FFFFFFF in
      let st1 :=
        {| currentBaud := currentBaud st;
           messageCount := u32 (messageCount st + 1);
           errorCount := errorCount st; startTime := startTime st;
           seenIds := seenIds st; idCounts := idCounts st;
           uniqueIdCount := uniqueIdCount st;
           awaitingMark := awaitingMark st |} in
      snd (findOrAddId canId st1)
  | PollError =>
      {| currentBaud := currentBaud st; messageCount := messageCount st;
         errorCount := u32 (errorCount st + 1); startTime := startTime st;
         seenIds := seenIds st; idCounts := idCounts st;
         uniqueIdCount := uniqueIdCount st;
         awaitingMark := awaitingMark st |}
  end.

(** The commands of step 2 of [loop()] that change the state. *)
Inductive Command :=
  | CmdBaud (b : can_baud_t)   (* '1' .. '4' *)
  | CmdScan                    (* 'a' *)
  | CmdClear                   (* 'c' *)
  | CmdMark                    (* 'm' *)
  | CmdOther.                  (* 's', 'h', anything else *)

Definition command (now : Z) (bus : can_baud_t -> RateTrial) (c : Command)
    (st : State) : State :=
  match c with
  | CmdBaud b => clearCounts now (set_baud b st)
  | CmdScan => snd (autoScan now bus st)
  | CmdClear => clearCounts now st
  | CmdMark =>
      {| currentBaud := currentBaud st; messageCount := messageCount st;
         errorCount := errorCount st; startTime := startTime st;
         seenIds := seenIds st; idCounts := idCounts st;
         uniqueIdCount := uniqueIdCount st; awaitingMark := true |}
  | CmdOther => st
  end.

(** ** Step 2 of [loop()]: the serial input *)

(** The command a character stands for, by the [switch] of [loop()]. *)
Definition decode (c : byte) : Command :=
  match c with
  | Init.Byte.x31 => CmdBaud BAUD_125K
  | Init.Byte.x32 => CmdBaud BAUD_250K
  | Init.Byte.x33 => CmdBaud BAUD_500K
  | Init.Byte.x34 => CmdBaud BAUD_1M
  | Init.Byte.x61 | Init.Byte.x41 => CmdScan
  | Init.Byte.x63 | Init.Byte.x43 => CmdClear
  | Init.Byte.x6d | Init.Byte.x4d => CmdMark
  | _ => CmdOther
  end.

(** [Serial.readStringUntil('\n')] on the bytes waiting in the receive
    buffer: the bytes before the first newline, and what is left after
    it (the newline is consumed; without one, everything is read). *)
Fixpoint readStringUntil_nl (input : list byte) : list byte * list byte :=
  match input with
  | [] => ([], [])
  | c :: rest =>
      if decide (c = Init.Byte.x0a) then ([], rest)
      else let '(line, rest') := readStringUntil_nl rest in (c :: line, rest')
  end.

Definition set_awaiting (b : bool) (st : State) : State :=
  {| currentBaud := currentBaud st; messageCount := messageCount st;
     errorCount := errorCount st; startTime := startTime st;
     seenIds := seenIds st; idCounts := idCounts st;
     uniqueIdCount := uniqueIdCount st; awaitingMark := b |}.

(** What one pass through step 2 leaves: the bytes still waiting, the
    annotation line printed (its timestamp and text), if any, and the
    state. [input] is what waits in the receive buffer; [now] is the clock
    read by the pass. *)
Definition serial_input (now : Z) (bus : can_baud_t -> RateTrial)
    (input : list byte) (st : State)
  : list byte * option (Z * list byte) * State :=
  match input with
  | [] => (input, None, st)
  | c :: rest =>
      if awaitingMark st then
        let '(line, rest') := readStringUntil_nl input in
        let markText := trim line in
        (rest',
         if 0 <? Z.of_nat (length markText)
         then Some (u32 (now - startTime st), markText) else None,
         set_awaiting false st)
      else (rest, None, command now bus (decode c) st)
  end.

(** Steps 1 and 2 of one iteration of [loop()]. *)
Definition loop (now : Z) (bus : can_baud_t -> RateTrial) (p : Poll)
    (input : list byte) (st : State)
  : list byte * option (Z * list byte) * State :=
  serial_input now bus input (receive p st).

(** The state after the polls [ps], with no serial input. *)
Definition receive_all (ps : list Poll) (st : State) : State :=
  fold_left (fun s p => receive p s) ps st.

End Serial.

(** * The WiFi program *)

Module Wifi.

Definition LOG_BUFFER_SIZE : Z := 500.

(** [struct LogEntry]; [data] has 8 bytes and [markText] 40. *)
Record LogEntry := {
  timestamp : Z;
  seq : Z;
  id : Z;
  extended : bool;
  rtr : bool;
  dlc : Z;
  data : list byte;
  isMark : bool;
  markText : list byte
}.

Definition zero_entry : LogEntry :=
  {| timestamp := 0; seq := 0; id := 0; extended := false; rtr := false;
     dlc := 0; data := replicate 8 NUL; isMark := false;
     markText := replicate 40 NUL |}.

#[global] Instance LogEntry_inhabited : Inhabited LogEntry := populate zero_entry.

Record State := {
  currentBaud : can_baud_t;
  messageCount : Z;
  errorCount : Z;
  startTime : Z;
  logBuffer : list LogEntry;
  logHead : Z;
  logCount : Z;
  nextSeq : Z;
  seenIds : list Z;
  idCounts : list Z;
  lastData : list (list byte);
  uniqueIdCount : Z
}.

(** The globals at start-up: zeroed arrays, [nextSeq = 1]. *)
Definition init : State :=
  {| currentBaud := BAUD_250K; messageCount := 0; errorCount := 0;
     startTime := 0; logBuffer := replicate 500 zero_entry; logHead := 0;
     logCount := 0; nextSeq := 1; seenIds := replicate 256 0;
     idCounts := replicate 256 0;
     lastData := replicate 256 (replicate 8 NUL); uniqueIdCount := 0 |}.

Definition set_table (st : State) (ids counts : list Z)
    (last : list (list byte)) (n : Z) : State :=
  {| currentBaud := currentBaud st; messageCount := messageCount st;
     errorCount := errorCount st; startTime := startTime st;
     logBuffer := logBuffer st; logHead := logHead st;
     logCount := logCount st; nextSeq := nextSeq st;
     seenIds := ids; idCounts := counts; lastData := last;
     uniqueIdCount := n |}.

Definition set_log (st : State) (buf : list LogEntry) (head count next : Z)
  : State :=
  {| currentBaud := currentBaud st; messageCount := messageCount st;
     errorCount := errorCount st; startTime := startTime st;
     logBuffer := buf; logHead := head; logCount := count; nextSeq := next;
     seenIds := seenIds st; idCounts := idCounts st;
     lastData := lastData st; uniqueIdCount := uniqueIdCount st |}.

Definition set_baud (b : can_baud_t) (st : State) : State :=
  {| currentBaud := b; messageCount := messageCount st;
     errorCount := errorCount st; startTime := startTime st;
     logBuffer := logBuffer st; logHead := logHead st;
     logCount := logCount st; nextSeq := nextSeq st;
     seenIds := seenIds st; idCounts := idCounts st;
     lastData := lastData st; uniqueIdCount := uniqueIdCount st |}.

(** [int findOrAddId(uint32_t id, uint8_t* data, uint8_t dlc)]. *)
Definition findOrAddId (canId : Z) (payload : list byte) (len : Z) (st : State)
  : Z * State :=
  match find_id (seenIds st) canId 0 (Z.to_nat (uniqueIdCount st)) with
  | Some i =>
      (i, set_table st (seenIds st)
            (<[Z.to_nat i := u32 (idCounts st !!! Z.to_nat i + 1)]> (idCounts st))
            (<[Z.to_nat i := memcpy (lastData st !!! Z.to_nat i) payload len]>
               (lastData st))
            (uniqueIdCount st))
  | None =>
      if uniqueIdCount st <? MAX_UNIQUE_IDS then
        (uniqueIdCount st + 1 - 1,
         set_table st
           (<[Z.to_nat (uniqueIdCount st) := canId]> (seenIds st))
           (<[Z.to_nat (uniqueIdCount st) := 1]> (idCounts st))
           (<[Z.to_nat (uniqueIdCount st) :=
                memcpy (lastData st !!! Z.to_nat (uniqueIdCount st)) payload len]>
              (lastData st))
           (uniqueIdCount st + 1))
      else (-1, st)
  end.

(** The two last statements of [addToLog] and [addMarkToLog], once the
    entry [e] is written at [logHead]. *)
Definition advance (e : LogEntry) (st : State) : State :=
  set_log st (<[Z.to_nat (logHead st) := e]> (logBuffer st))
    (Z.rem (logHead st + 1) LOG_BUFFER_SIZE)
    (if logCount st <? LOG_BUFFER_SIZE then logCount st + 1 else logCount st)
    (u32 (nextSeq st + 1)).

(** The entry [addToLog] leaves in the slot at [logHead]. The slot is
    written field by field, so bytes 1..39 of [markText] keep what the
    slot held before. *)
Definition frame_entry (now canId : Z) (ext isRtr : bool) (len : Z)
    (payload : list byte) (st : State) : LogEntry :=
  let old := logBuffer st !!! Z.to_nat (logHead st) in
  {| timestamp := u32 (now - startTime st); seq := nextSeq st; id := canId;
     extended := ext; rtr := isRtr; dlc := len;
     data := memcpy (data old) payload 8; isMark := false;
     markText := <[0%nat := NUL]> (markText old) |}.

Definition addToLog (now canId : Z) (ext isRtr : bool) (len : Z)
    (payload : list byte) (st : State) : State :=
  advance (frame_entry now canId ext isRtr len payload st) st.

(** The entry [addMarkToLog] leaves in the slot at [logHead]. *)
Definition mark_entry (now : Z) (text : list byte) (st : State) : LogEntry :=
  let old := logBuffer st !!! Z.to_nat (logHead st) in
  {| timestamp := u32 (now - startTime st); seq := nextSeq st; id := 0;
     extended := false; rtr := false; dlc := 0;
     data := memset0 (data old) 8; isMark := true;
     markText := <[39%nat := NUL]> (strncpy (markText old) text 39) |}.

Definition addMarkToLog (now : Z) (text : list byte) (st : State) : State :=
  advance (mark_entry now text st) st.

(** The entries [handleLog] walks through for the reply, oldest first:
    [n] entries from slot [idx], each step to [(idx + 1) % 500]. *)
Fixpoint walk (buf : list LogEntry) (idx : Z) (n : nat) : list LogEntry :=
  match n with
  | O => []
  | S n' =>
      (buf !!! Z.to_nat idx) :: walk buf (Z.rem (idx + 1) LOG_BUFFER_SIZE) n'
  end.

(** The walk of [handleLog] with its bound [100] as a parameter. *)
Definition snapshot (maxCount : Z) (st : State) : list LogEntry :=
  let count := Z.min maxCount (logCount st) in
  let idx := Z.rem (logHead st - count + LOG_BUFFER_SIZE) LOG_BUFFER_SIZE in
  walk (logBuffer st) idx (Z.to_nat count).

(** [handleLog()]: the entries of the reply and the state afterwards. *)
Definition handleLog (st : State) : list LogEntry * State :=
  (snapshot 100 st, st).

(** The entries [handleCSV] writes out, in its order. *)
Definition drainAll (st : State) : list LogEntry :=
  let start := if logCount st <? LOG_BUFFER_SIZE then 0 else logHead st in
  map (fun i => logBuffer st !!! Z.to_nat (Z.rem (start + i) LOG_BUFFER_SIZE))
      (seqZ 0 (logCount st)).

Definition handleCSV (st : State) : list LogEntry * State :=
  (drainAll st, st).

(** [handleBaud()]: [arg] is the value of [server.arg("v").toInt()] when
    the request has the argument. [initCAN] touches no global. *)
Definition handleBaud (arg : option Z) (st : State) : State :=
  match arg with
  | None => st
  | Some v =>
      if v =? 1 then set_baud BAUD_125K st
      else if v =? 2 then set_baud BAUD_250K st
      else if v =? 3 then set_baud BAUD_500K st
      else if v =? 4 then set_baud BAUD_1M st
      else st
  end.

(** [handleMark()]: [arg] is the text of the [msg] argument when the
    request has one. *)
Definition handleMark (now : Z) (arg : option (list byte)) (st : State) : State :=
  match arg with
  | None => st
  | Some msg =>
      let msg' := trim msg in
      if 0 <? Z.of_nat (length msg') then addMarkToLog now msg' st else st
  end.

(** One iteration of [while (millis() - scanStart < 3000)] of
    [handleScan]: a failed read changes nothing. *)
Definition trial_step (t : Trial) (p : Poll) : Trial :=
  match p with
  | PollIdle => t
  | PollFrame rxId _ _ => trial_frame rxId t
  | PollError => t
  end.

Definition trial_from (t : Trial) (ps : list Poll) : Trial :=
  fold_left trial_step ps t.

Definition trial_run (ps : list Poll) : Trial := trial_from trial_init ps.

(** [handleScan()]: the report and the state afterwards. *)
Definition handleScan (bus : can_baud_t -> RateTrial) (st : State)
  : ScanAcc * State :=
  let acc := scan_all trial_run bus in
  if 0 <=? bestRate acc
  then (acc, set_baud (rates !!! Z.to_nat (bestRate acc)) st)
  else (acc, st).

(** [handleClear()], called when [millis()] reads [now]. *)
Definition handleClear (now : Z) (st : State) : State :=
  {| currentBaud := currentBaud st; messageCount := 0; errorCount := 0;
     startTime := now; logBuffer := logBuffer st; logHead := 0;
     logCount := 0; nextSeq := nextSeq st; seenIds := seenIds st;
     idCounts := idCounts st; lastData := lastData st; uniqueIdCount := 0 |}.

(** The receive attempt of [loop()]. *)
Definition receive (now : Z) (p : Poll) (st : State) : State :=
  match p with
  | PollFrame rxId len payload =>
      let ext := negb (Z.land rxId 0x80000000 =? 0) in
      let isRtr := negb (Z.land rxId 0x40000000 =? 0) in
      let canId := Z.land rxId 0x1FFFFFFF in
      let st1 :=
        {| currentBaud := currentBaud st;
           messageCount := u32 (messageCount st + 1);
           errorCount := errorCount st; startTime := startTime st;
           logBuffer := logBuffer st; logHead := logHead st;
           logCount := logCount st; nextSeq := nextSeq st;
           seenIds := seenIds st; idCounts := idCounts st;
           lastData := lastData st; uniqueIdCount := uniqueIdCount st |} in
      addToLog now canId ext isRtr len payload
        (snd (findOrAddId canId payload len st1))
  | _ => st
  end.

(** ** Runs of the event log *)

(** A request to append: a captured frame or an annotation, with the
    clock reading at the time. *)
Inductive Append :=
  | AppFrame (now canId : Z) (ext isRtr : bool) (len : Z) (payload : list byte)
  | AppMark (now : Z) (text : list byte).

(** The entry an append writes in the state [st]. *)
Definition written (a : Append) (st : State) : LogEntry :=
  match a with
  | AppFrame now canId ext isRtr len payload =>
      frame_entry now canId ext isRtr len payload st
  | AppMark now text => mark_entry now text st
  end.

Definition append (a : Append) (st : State) : State :=
  match a with
  | AppFrame now canId ext isRtr len payload =>
      addToLog now canId ext isRtr len payload st
  | AppMark now text => addMarkToLog now text st
  end.

(** Appends and resets, in any order. *)
Inductive LogOp :=
  | OpAppend (a : Append)
  | OpClear (now : Z).

Definition log_op (o : LogOp) (st : State) : State :=
  match o with
  | OpAppend a => append a st
  | OpClear now => handleClear now st
  end.

(** The state after the operations [ops], and the entries the appends
    among them wrote, in order. *)
Fixpoint run_log (ops : list LogOp) (st : State) : list LogEntry * State :=
  match ops with
  | [] => ([], st)
  | o :: rest =>
      let '(es, st') := run_log rest (log_op o st) in
      (match o with OpAppend a => written a st :: es | OpClear _ => es end, st')
  end.

Definition append_all (apps : list Append) (st : State) : list LogEntry * State :=
  run_log (map OpAppend apps) st.

(** ** Runs of the identifier table *)

(** A call [findOrAddId(id, data, dlc)]. *)
Record Call := { call_id : Z; call_data : list byte; call_dlc : Z }.

Definition record_all (cs : list Call) (st : State) : State :=
  fold_left (fun s c => snd (findOrAddId (call_id c) (call_data c) (call_dlc c) s))
    cs st.

(** ** The other handlers and [loop()] *)

(** What [handleStatus()] reports. *)
Record Status := {
  status_baud : can_baud_t;
  status_messages : Z;
  status_errors : Z;
  status_uniqueIds : Z
}.

Definition handleStatus (st : State) : Status :=
  {| status_baud := currentBaud st; status_messages := messageCount st;
     status_errors := errorCount st; status_uniqueIds := uniqueIdCount st |}.

(** The records [handleIds()] lists: identifier, count and the 8 bytes
    of last data, for [i] from 0 to [uniqueIdCount - 1]. *)
Definition handleIds (st : State) : list (Z * Z * list byte) :=
  map (fun i => (seenIds st !!! Z.to_nat i, idCounts st !!! Z.to_nat i,
                 lastData st !!! Z.to_nat i))
      (seqZ 0 (uniqueIdCount st)).

(** The request, if any, that [server.handleClient()] serves in one
    iteration, by the routes registered in [setup()]. *)
Inductive Request :=
  | NoRequest
  | GetRoot
  | GetStatus
  | GetIds
  | GetLog
  | GetBaud (arg : option Z)
  | GetMark (arg : option (list byte))
  | GetScan (bus : can_baud_t -> RateTrial)
  | GetClear
  | GetCSV.

Inductive Reply :=
  | NoReply
  | ReplyPage
  | ReplyOK
  | ReplyStatus (s : Status)
  | ReplyIds (ids : list (Z * Z * list byte))
  | ReplyLog (es : list LogEntry)
  | ReplyScan (lines : list ScanResult)
  | ReplyCSV (es : list LogEntry).

(** [server.handleClient()], with the clock [now] for the handlers that
    read it. *)
Definition handleClient (now : Z) (r : Request) (st : State) : Reply * State :=
  match r with
  | NoRequest => (NoReply, st)
  | GetRoot => (ReplyPage, st)
  | GetStatus => (ReplyStatus (handleStatus st), st)
  | GetIds => (ReplyIds (handleIds st), st)
  | GetLog => (ReplyLog (fst (handleLog st)), snd (handleLog st))
  | GetBaud arg => (ReplyOK, handleBaud arg st)
  | GetMark arg => (ReplyOK, handleMark now arg st)
  | GetScan bus =>
      (ReplyScan (report (fst (handleScan bus st))), snd (handleScan bus st))
  | GetClear => (ReplyOK, handleClear now st)
  | GetCSV => (ReplyCSV (fst (handleCSV st)), snd (handleCSV st))
  end.

(** One iteration of [loop()]: the request served, then the receive
    attempt, each with its own reading of the clock. *)
Record Tick := {
  tick_request : Request;
  tick_request_now : Z;
  tick_poll : Poll;
  tick_poll_now : Z
}.

Definition loop (t : Tick) (st : State) : State :=
  receive (tick_poll_now t) (tick_poll t)
    (snd (handleClient (tick_request_now t) (tick_request t) st)).

Definition run (ts : list Tick) (st : State) : State :=
  fold_left (fun s t => loop t s) ts st.

End Wifi.

(** * Invariants and abstract views *)

(** ** The event log

    [LogRep h st]: [h] lists, oldest first, the entries written since the
    last reset; the buffer holds the last 500 of them, the entry number
    [j] in slot [j mod 500]. *)
Definition LogRep (h : list Wifi.LogEntry) (st : Wifi.State) : Prop :=
  length (Wifi.logBuffer st) = 500%nat ∧
  Wifi.logHead st = Z.of_nat (length h) mod 500 ∧
  Wifi.logCount st = Z.min (Z.of_nat (length h)) 500 ∧
  ∀ j : nat, (length h ≤ j + 500)%nat → (j < length h)%nat →
    Wifi.logBuffer st !! Z.to_nat (Z.of_nat j mod 500) = h !! j.

(** What the code maintains about the log's globals: the array has its
    500 slots, [logHead] is a slot, and while the log is not full the
    head is the count. *)
Definition log_wf (st : Wifi.State) : Prop :=
  length (Wifi.logBuffer st) = 500%nat ∧
  0 ≤ Wifi.logHead st < 500 ∧
  0 ≤ Wifi.logCount st ≤ 500 ∧
  (Wifi.logCount st < 500 → Wifi.logHead st = Wifi.logCount st).

(** ** The identifier tables

    The three tables of the programs (the live one of each program and
    the private one of a scan trial) are the same pair of arrays with a
    fill count, updated by the same statements. [record_core cap id]
    is that update on [(seen, counts, n)] for a table of [cap] slots. *)
Definition record_core (cap id : Z) (tab : list Z * list Z * Z)
  : list Z * list Z * Z :=
  let '(seen, counts, n) := tab in
  match find_id seen id 0 (Z.to_nat n) with
  | Some i => (seen, <[Z.to_nat i := u32 (counts !!! Z.to_nat i + 1)]> counts, n)
  | None =>
      if n <? cap
      then (<[Z.to_nat n := id]> seen, <[Z.to_nat n := 1]> counts, n + 1)
      else tab
  end.

(** The table of each program, as such a triple. *)
Definition wifi_table (st : Wifi.State) : list Z * list Z * Z :=
  (Wifi.seenIds st, Wifi.idCounts st, Wifi.uniqueIdCount st).

Definition serial_table (st : Serial.State) : list Z * list Z * Z :=
  (Serial.seenIds st, Serial.idCounts st, Serial.uniqueIdCount st).

(** The number of calls in [calls] made with the identifier [id]. *)
Definition occurrences (id : Z) (calls : list Z) : nat :=
  length (filter (λ x, x = id) calls).

(** [table_inv cap calls tab]: what holds of a table after the calls
    [calls] since its last reset. *)
Definition table_inv (cap : Z) (calls : list Z) (tab : list Z * list Z * Z)
  : Prop :=
  let '(seen, counts, n) := tab in
  0 ≤ n ≤ cap ∧
  length seen = Z.to_nat cap ∧
  length counts = Z.to_nat cap ∧
  NoDup (take (Z.to_nat n) seen) ∧
  (∀ (i : nat) id, (i < Z.to_nat n)%nat → seen !! i = Some id →
     id ∈ calls ∧
     counts !! i = Some (u32 (Z.of_nat (occurrences id calls)))) ∧
  (n < cap → ∀ id, id ∈ calls → id ∈ take (Z.to_nat n) seen).

(** What C1 says of the held records, with the count as the code keeps
    it: in an [unsigned long]. *)
Definition held_counts (calls seen counts : list Z) (n : Z) : Prop :=
  0 ≤ n ≤ MAX_UNIQUE_IDS ∧
  NoDup (take (Z.to_nat n) seen) ∧
  (∀ i : nat, Z.of_nat i < n →
     counts !!! i = u32 (Z.of_nat (occurrences (seen !!! i) calls))) ∧
  (Z.of_nat (length calls) ≤ UINT32_MAX →
   ∀ i : nat, Z.of_nat i < n →
     counts !!! i = Z.of_nat (occurrences (seen !!! i) calls)).

(** ** Scores

    The scores of a scan are zero, positive or plus infinity, never NaN
    and never negative. On such values the comparison [<] of binary32 is
    the lexicographic order of [(class, exponent, mantissa)]. *)
Definition f32_nonneg (x : spec_float) : Prop :=
  match x with
  | S754_zero _ => True
  | S754_infinity s => s = false
  | S754_nan => False
  | S754_finite s _ _ => s = false
  end.

Definition f32_rank (x : spec_float) : Z * Z * Z :=
  match x with
  | S754_zero _ => (0, 0, 0)
  | S754_finite _ m e => (1, e, Zpos m)
  | S754_infinity _ => (2, 0, 0)
  | S754_nan => (3, 0, 0)
  end.

Definition lex_lt (a b : Z * Z * Z) : Prop :=
  let '(c1, e1, m1) := a in
  let '(c2, e2, m2) := b in
  c1 < c2 ∨ (c1 = c2 ∧ (e1 < e2 ∨ (e1 = e2 ∧ m1 < m2))).

(** The counts a trial can leave: at most 64 identifiers. *)
Definition trial_range (t : Trial) : Prop :=
  0 ≤ scanUniqueIds t ≤ SCAN_IDS ∧ 0 ≤ scanMsgCount t ≤ UINT32_MAX.

(** The number of failed reads among the polls of a window. *)
Definition is_error (p : Poll) : bool :=
  match p with PollError => true | _ => false end.

Definition error_count (ps : list Poll) : nat :=
  length (filter (λ p, is_error p = true) ps).

(** [repeatRate] as the specification words it: the quotient of the
    counts, and zero when no identifier was seen. *)
Definition repeatRate_spec (t : Trial) : spec_float :=
  if scanUniqueIds t =? 0 then f32_of_Z 0
  else f32_div (f32_of_Z (scanMsgCount t)) (f32_of_Z (scanUniqueIds t)).

(** The score of a candidate: none when [initCAN] failed, the score of
    the table left by the trial otherwise. *)
Definition cand_score (run : list Poll → Trial) (w : RateTrial)
  : option spec_float :=
  if init_ok w
  then Some (score (scanMsgCount (run (polls w))) (scanUniqueIds (run (polls w))))
  else None.

(** [best_of scores best]: what the selection promises of the index
    [best] it returns for the scores of the candidates, in their order.
    Either [best = -1] and no candidate scored above zero, or [best] is a
    candidate that scored above zero, above every earlier candidate, and
    that no later candidate scored above. *)
Definition best_of (scores : list (option spec_float)) (best : Z) : Prop :=
  (best = -1 ∧
   ∀ (j : nat) s, scores !! j = Some (Some s) → f32_gt s (f32_of_Z 0) = false)
  ∨
  (0 ≤ best ∧
   ∃ sb, scores !! Z.to_nat best = Some (Some sb) ∧
     f32_gt sb (f32_of_Z 0) = true ∧
     ∀ (j : nat) s, scores !! j = Some (Some s) →
       (Z.of_nat j < best → f32_gt sb s = true) ∧
       (best < Z.of_nat j → f32_gt s sb = false)).

(** The loop invariant of the selection: [best_of] for the candidates
    seen so far, with [bs] the value of [bestScore]. *)
Definition best_inv (prev : list (option spec_float)) (best : Z)
    (bs : spec_float) : Prop :=
  f32_nonneg bs ∧
  (∀ (j : nat) s, prev !! j = Some (Some s) → f32_nonneg s) ∧
  ((best = -1 ∧ bs = f32_of_Z 0 ∧
    ∀ (j : nat) s, prev !! j = Some (Some s) → f32_gt s (f32_of_Z 0) = false)
   ∨
   (0 ≤ best ∧ prev !! Z.to_nat best = Some (Some bs) ∧
    f32_gt bs (f32_of_Z 0) = true ∧
    ∀ (j : nat) s, prev !! j = Some (Some s) →
      (Z.of_nat j < best → f32_gt bs s = true) ∧
      (best < Z.of_nat j → f32_gt s bs = false))).

(** ** Views used to state the further properties *)

(** The identifier a frame is tracked and logged under. *)
Definition canId_of (rxId : Z) : Z := Z.land rxId 0x1FFFFFFF.

(** The identifiers of the frames among the polls, in order. *)
Fixpoint frame_ids (ps : list Poll) : list Z :=
  match ps with
  | [] => []
  | PollFrame rxId _ _ :: ps' => canId_of rxId :: frame_ids ps'
  | _ :: ps' => frame_ids ps'
  end.

(** The distinct identifiers of a run of calls, in the order in which
    each is first met. *)
Fixpoint first_seen_from (acc calls : list Z) : list Z :=
  match calls with
  | [] => acc
  | id :: calls' =>
      first_seen_from (if decide (id ∈ acc) then acc else acc ++ [id]) calls'
  end.

Definition first_seen (calls : list Z) : list Z := first_seen_from [] calls.

(** The private table of a trial, as a triple. *)
Definition trial_table (t : Trial) : list Z * list Z * Z :=
  (scanIds t, scanIdCounts t, scanUniqueIds t).

(** A frame as the controller delivers it: an 8-byte buffer, of which
    [len <= 8] bytes are the payload, and a 32-bit [rxId]. *)
Definition poll_wf (p : Poll) : Prop :=
  match p with
  | PollFrame rxId len payload =>
      0 ≤ rxId ≤ UINT32_MAX ∧ 0 ≤ len ≤ 8 ∧ length payload = 8%nat
  | _ => True
  end.

(** The shape the WiFi program keeps of its globals. *)
Definition entry_wf (e : Wifi.LogEntry) : Prop :=
  length (Wifi.data e) = 8%nat ∧ length (Wifi.markText e) = 40%nat.

Definition wifi_wf (st : Wifi.State) : Prop :=
  log_wf st ∧
  Forall entry_wf (Wifi.logBuffer st) ∧
  0 ≤ Wifi.nextSeq st ≤ UINT32_MAX ∧
  0 ≤ Wifi.messageCount st ≤ UINT32_MAX ∧
  0 ≤ Wifi.uniqueIdCount st ≤ MAX_UNIQUE_IDS ∧
  length (Wifi.seenIds st) = 256%nat ∧
  length (Wifi.idCounts st) = 256%nat ∧
  length (Wifi.lastData st) = 256%nat ∧
  Forall (λ row, length row = 8%nat) (Wifi.lastData st).

(** [LogSeq h st]: the history [h] of [LogRep] carries consecutive
    sequence numbers, the newest one the number before [nextSeq]. *)
Definition LogSeq (h : list Wifi.LogEntry) (st : Wifi.State) : Prop :=
  ∀ (j : nat) e, h !! j = Some e →
    Wifi.seq e = u32 (Wifi.nextSeq st - Z.of_nat (length h - j)).

(** Two states with the same event log (buffer, head, count, counter). *)
Definition same_log (st st' : Wifi.State) : Prop :=
  Wifi.logBuffer st' = Wifi.logBuffer st ∧
  Wifi.logHead st' = Wifi.logHead st ∧
  Wifi.logCount st' = Wifi.logCount st ∧
  Wifi.nextSeq st' = Wifi.nextSeq st.

(** What every reachable state of the WiFi program satisfies of its
    log: it represents a history with consecutive sequence numbers. *)
Definition log_inv (st : Wifi.State) : Prop :=
  0 ≤ Wifi.nextSeq st ≤ UINT32_MAX ∧ ∃ h, LogRep h st ∧ LogSeq h st.

(** Identifiers of 29 bits: those held in the table and those logged. *)
Definition ids_29bit (st : Wifi.State) : Prop :=
  (∀ (i : nat) id, Z.of_nat i < Wifi.uniqueIdCount st →
     Wifi.seenIds st !! i = Some id → 0 ≤ id < 2 ^ 29) ∧
  Forall (λ e, 0 ≤ Wifi.id e < 2 ^ 29) (Wifi.logBuffer st).

(** The number of frames among the polls. *)
Definition frame_count (ps : list Poll) : nat := length (frame_ids ps).

(** * Properties *)

(** ** Event log: representation lemmas *)

Lemma LogRep_wf h st : LogRep h st → log_wf st.
Proof.
  intros (Hlen & Hh & Hc & _). unfold log_wf. repeat split; try lia.
Qed.

Lemma LogRep_clear now st :
  length (Wifi.logBuffer st) = 500%nat → LogRep [] (Wifi.handleClear now st).
Proof.
  intros Hlen. unfold LogRep; simpl. repeat split; try done.
  intros j ? ?. lia.
Qed.

Lemma LogRep_init : LogRep [] Wifi.init.
Proof.
  unfold LogRep; simpl. repeat split; try done. intros j ? ?. lia.
Qed.

Lemma LogRep_advance h e st :
  LogRep h st → LogRep (h ++ [e]) (Wifi.advance e st).
Proof.
  intros (Hlen & Hh & Hc & Hslots).
  unfold LogRep, Wifi.advance, Wifi.LOG_BUFFER_SIZE; simpl.
  rewrite length_insert, length_app; simpl.
  repeat split.
  - done.
  - rewrite Hh. lia.
  - rewrite Hc. destruct (Z.ltb_spec (Z.min (Z.of_nat (length h)) 500) 500); lia.
  - intros j Hlo Hhi. rewrite Hh.
    destruct (decide (j = length h)) as [->|Hne].
    + rewrite list_lookup_insert_eq by lia.
      by rewrite lookup_app_r, Nat.sub_diag by lia.
    + rewrite list_lookup_insert_ne by lia.
      rewrite lookup_app_l by lia. apply Hslots; lia.
Qed.

Lemma LogRep_append h a st :
  LogRep h st → LogRep (h ++ [Wifi.written a st]) (Wifi.append a st).
Proof. destruct a; apply LogRep_advance. Qed.

Lemma append_all_cons a apps st :
  Wifi.append_all (a :: apps) st =
  (Wifi.written a st :: fst (Wifi.append_all apps (Wifi.append a st)),
   snd (Wifi.append_all apps (Wifi.append a st))).
Proof.
  unfold Wifi.append_all; simpl.
  by destruct (Wifi.run_log (map Wifi.OpAppend apps) (Wifi.append a st)).
Qed.

Lemma append_all_length apps st :
  length (fst (Wifi.append_all apps st)) = length apps.
Proof.
  revert st; induction apps as [|a apps IH]; intros st; [done|].
  rewrite append_all_cons; simpl. by rewrite IH.
Qed.

Lemma LogRep_append_all apps : ∀ h st,
  LogRep h st →
  LogRep (h ++ fst (Wifi.append_all apps st)) (snd (Wifi.append_all apps st)).
Proof.
  induction apps as [|a apps IH]; intros h st Hrep.
  - simpl. by rewrite app_nil_r.
  - rewrite append_all_cons; simpl.
    rewrite (cons_middle _ h), app_assoc. apply IH. by apply LogRep_append.
Qed.

(** A well-formed log represents some history. *)
Lemma log_wf_rep st : log_wf st → ∃ h, LogRep h st.
Proof.
  intros (Hlen & Hh & Hc & Hlt).
  destruct (decide (Wifi.logCount st < 500)) as [Hc500|Hc500].
  - exists (take (Z.to_nat (Wifi.logCount st)) (Wifi.logBuffer st)).
    unfold LogRep. rewrite length_take, Hlen. repeat split; try lia.
    intros j ? ?. rewrite lookup_take_lt by lia. f_equal. lia.
  - set (k := Z.to_nat (Wifi.logHead st)).
    exists (replicate k Wifi.zero_entry
              ++ drop k (Wifi.logBuffer st) ++ take k (Wifi.logBuffer st)).
    unfold LogRep.
    rewrite !length_app, length_replicate, length_drop, length_take, Hlen.
    repeat split; try lia.
    intros j ? ?. rewrite lookup_app_r by (rewrite length_replicate; lia).
    rewrite length_replicate.
    destruct (decide (j < 500)%nat).
    + rewrite lookup_app_l by (rewrite length_drop; lia).
      rewrite lookup_drop. f_equal. lia.
    + rewrite lookup_app_r by (rewrite length_drop; lia).
      rewrite length_drop, lookup_take_lt by lia. f_equal. lia.
Qed.

Lemma walk_length buf n : ∀ idx, length (Wifi.walk buf idx n) = n.
Proof. induction n as [|n IH]; intros idx; simpl; [done|by rewrite IH]. Qed.

Lemma walk_lookup buf n : ∀ idx (i : nat),
  0 ≤ idx < 500 → (i < n)%nat →
  Wifi.walk buf idx n !! i =
  Some (buf !!! Z.to_nat ((idx + Z.of_nat i) mod 500)).
Proof.
  induction n as [|n IH]; intros idx i Hidx Hi; [lia|].
  destruct i as [|i]; simpl.
  - do 2 f_equal. lia.
  - rewrite IH by (unfold Wifi.LOG_BUFFER_SIZE; lia).
    do 3 f_equal. unfold Wifi.LOG_BUFFER_SIZE. lia.
Qed.

(** [drainAll] yields the retained entries: the last 500 of the history. *)
Lemma drainAll_rep h st :
  LogRep h st → Wifi.drainAll st = drop (length h - 500) h.
Proof.
  intros (Hlen & Hh & Hc & Hslots). apply list_eq; intros i.
  unfold Wifi.drainAll, Wifi.LOG_BUFFER_SIZE.
  rewrite list_lookup_fmap, lookup_drop.
  destruct (decide (Z.of_nat i < Wifi.logCount st)) as [Hi|Hi].
  - rewrite lookup_seqZ_lt by done; simpl.
    rewrite <- Hslots by lia.
    rewrite list_lookup_lookup_total_lt by lia.
    do 3 f_equal.
    destruct (Z.ltb_spec (Wifi.logCount st) 500); lia.
  - rewrite lookup_seqZ_ge by lia; simpl.
    symmetry. apply lookup_ge_None_2. lia.
Qed.

(** [snapshot n] yields the last [min n logCount] entries of the history,
    oldest first. *)
Lemma snapshot_rep h st n :
  LogRep h st → 0 ≤ n →
  Wifi.snapshot n st =
  drop (length h - Z.to_nat (Z.min n (Wifi.logCount st))) h.
Proof.
  intros (Hlen & Hh & Hc & Hslots) Hn. apply list_eq; intros i.
  unfold Wifi.snapshot, Wifi.LOG_BUFFER_SIZE. rewrite lookup_drop.
  set (c := Z.min n (Wifi.logCount st)).
  destruct (decide (i < Z.to_nat c)%nat) as [Hi|Hi].
  - rewrite walk_lookup by lia.
    rewrite <- Hslots by lia.
    rewrite list_lookup_lookup_total_lt by lia.
    do 3 f_equal. lia.
  - rewrite (lookup_ge_None_2 (Wifi.walk _ _ _)) by (rewrite walk_length; lia).
    symmetry. apply lookup_ge_None_2. lia.
Qed.

Lemma snapshot_length st n :
  length (Wifi.snapshot n st) = Z.to_nat (Z.min n (Wifi.logCount st)).
Proof. unfold Wifi.snapshot. apply walk_length. Qed.

Lemma append_all_rep apps h st :
  LogRep h st →
  let (es, st') := Wifi.append_all apps st in LogRep (h ++ es) st'.
Proof.
  intros Hrep. pose proof (LogRep_append_all apps h st Hrep) as H.
  by destruct (Wifi.append_all apps st).
Qed.

(** ** Event log: bulk export and snapshot *)

(** C6. After [500 + m] appends ([m > 0]) to a well-formed log, the walk
    of [handleCSV] yields exactly 500 entries: the entries written by the
    appends number [m+1] to [500+m], in the order they were written. *)
Theorem drainAll_after_overflow (st : Wifi.State) (apps : list Wifi.Append)
    (m : nat) :
  log_wf st → (0 < m)%nat → length apps = (500 + m)%nat →
  let (es, st') := Wifi.append_all apps st in
  length (Wifi.drainAll st') = Z.to_nat Wifi.LOG_BUFFER_SIZE ∧
  Wifi.drainAll st' = drop m es ∧
  Wifi.handleCSV st' = (drop m es, st').
Proof.
  intros Hwf Hm Hlen. destruct (log_wf_rep st Hwf) as [h Hrep].
  pose proof (append_all_rep apps h st Hrep) as Hrep'.
  pose proof (append_all_length apps st) as Hes.
  destruct (Wifi.append_all apps st) as [es st']; simpl in Hes.
  assert (Wifi.drainAll st' = drop m es) as Hd.
  { rewrite (drainAll_rep _ _ Hrep'), length_app.
    rewrite drop_app_ge by lia. f_equal. lia. }
  unfold Wifi.handleCSV. rewrite Hd, length_drop. repeat split.
  unfold Wifi.LOG_BUFFER_SIZE. lia.
Qed.

Lemma drainAll_after_overflow_witness :
  let apps :=
    map (fun i => Wifi.AppFrame i (i mod 7) false false 1 (replicate 8 NUL))
        (seqZ 0 502) in
  let (es, st') := Wifi.append_all apps Wifi.init in
  length (Wifi.drainAll st') = Z.to_nat Wifi.LOG_BUFFER_SIZE ∧
  Wifi.drainAll st' = drop 2 es ∧
  Wifi.handleCSV st' = (drop 2 es, st').
Proof.
  apply (drainAll_after_overflow Wifi.init _ 2).
  - unfold log_wf; simpl. repeat split; try lia; reflexivity.
  - lia.
  - vm_compute. reflexivity.
Defined.

(** C7. In every log state reached by appends from a well-formed one,
    the walk of [handleLog] with bound [n] yields exactly
    [min n logCount] entries, the most recently written ones, oldest
    first; [handleLog] itself uses the bound 100 and leaves the state as
    it was. *)
Theorem snapshot_most_recent (st : Wifi.State) (apps : list Wifi.Append)
    (n : Z) :
  log_wf st → 0 ≤ n →
  let (es, st') := Wifi.append_all apps st in
  let k := Z.to_nat (Z.min n (Wifi.logCount st')) in
  let retained := Wifi.drainAll st ++ es in
  length (Wifi.snapshot n st') = k ∧
  Wifi.snapshot n st' = drop (length retained - k) retained ∧
  Wifi.handleLog st' = (Wifi.snapshot 100 st', st').
Proof.
  intros Hwf Hn. destruct (log_wf_rep st Hwf) as [h Hrep].
  pose proof (append_all_rep apps h st Hrep) as Hrep'.
  destruct (Wifi.append_all apps st) as [es st']; simpl.
  split; [apply snapshot_length|]. split; [|done].
  rewrite (snapshot_rep _ _ _ Hrep' Hn), (drainAll_rep _ _ Hrep).
  destruct Hrep' as (_ & _ & Hc & _). rewrite length_app in Hc.
  set (k := Z.to_nat (Z.min n (Wifi.logCount st'))).
  rewrite <- (take_drop (length h - 500) h) at 2.
  rewrite <- app_assoc, drop_app_ge by (rewrite length_take, length_app; lia).
  f_equal. rewrite !length_app, length_take, length_drop. lia.
Qed.

Lemma snapshot_most_recent_witness :
  let apps :=
    [Wifi.AppFrame 5 291 false false 2 (replicate 8 NUL);
     Wifi.AppMark 6 [Init.Byte.x4b];
     Wifi.AppFrame 9 291 false false 2 (replicate 8 NUL)] in
  let (es, st') := Wifi.append_all apps Wifi.init in
  let k := Z.to_nat (Z.min 2 (Wifi.logCount st')) in
  let retained := Wifi.drainAll Wifi.init ++ es in
  length (Wifi.snapshot 2 st') = k ∧
  Wifi.snapshot 2 st' = drop (length retained - k) retained ∧
  Wifi.handleLog st' = (Wifi.snapshot 100 st', st').
Proof.
  apply (snapshot_most_recent Wifi.init _ 2).
  - unfold log_wf; simpl. repeat split; try lia; reflexivity.
  - lia.
Defined.

(** ** Event log: sequence numbers *)

Lemma written_seq a st : Wifi.seq (Wifi.written a st) = Wifi.nextSeq st.
Proof. by destruct a. Qed.

Lemma append_nextSeq a st :
  Wifi.nextSeq (Wifi.append a st) = u32 (Wifi.nextSeq st + 1).
Proof. by destruct a. Qed.

Lemma run_log_cons o ops st :
  Wifi.run_log (o :: ops) st =
  (match o with
   | Wifi.OpAppend a => Wifi.written a st :: fst (Wifi.run_log ops (Wifi.log_op o st))
   | Wifi.OpClear _ => fst (Wifi.run_log ops (Wifi.log_op o st))
   end,
   snd (Wifi.run_log ops (Wifi.log_op o st))).
Proof. simpl. by destruct (Wifi.run_log ops (Wifi.log_op o st)). Qed.

Lemma u32_range x : 0 ≤ u32 x ≤ UINT32_MAX.
Proof. unfold u32, UINT32_MAX. lia. Qed.

Lemma u32_add_l x k : u32 (u32 (x + 1) + k) = u32 (x + (k + 1)).
Proof. unfold u32, UINT32_MAX. lia. Qed.

(** The [k]-th entry written by a run carries the counter's start value
    plus [k], reduced modulo [2^32], whatever resets lie in between. *)
Lemma run_log_seq ops : ∀ st,
  0 ≤ Wifi.nextSeq st ≤ UINT32_MAX →
  (∀ (k : nat) e, fst (Wifi.run_log ops st) !! k = Some e →
     Wifi.seq e = u32 (Wifi.nextSeq st + Z.of_nat k)) ∧
  Wifi.nextSeq (snd (Wifi.run_log ops st)) =
    u32 (Wifi.nextSeq st + Z.of_nat (length (fst (Wifi.run_log ops st)))).
Proof.
  induction ops as [|o ops IH]; intros st Hr.
  - simpl. split; [intros k e; by rewrite lookup_nil|].
    unfold u32, UINT32_MAX in *. lia.
  - rewrite run_log_cons. destruct o as [a|now]; simpl.
    + destruct (IH (Wifi.append a st)) as [IH1 IH2].
      { rewrite append_nextSeq. apply u32_range. }
      rewrite append_nextSeq in IH1, IH2. split.
      * intros [|k] e He; simpl in He.
        -- injection He as <-. rewrite written_seq.
           unfold u32, UINT32_MAX in *. lia.
        -- rewrite (IH1 _ _ He), u32_add_l. f_equal. lia.
      * rewrite IH2, u32_add_l. f_equal. lia.
    + apply (IH (Wifi.handleClear now st)). done.
Qed.

Lemma append_all_seq apps st :
  0 ≤ Wifi.nextSeq st ≤ UINT32_MAX →
  (∀ (k : nat) e, fst (Wifi.append_all apps st) !! k = Some e →
     Wifi.seq e = u32 (Wifi.nextSeq st + Z.of_nat k)) ∧
  Wifi.nextSeq (snd (Wifi.append_all apps st)) =
    u32 (Wifi.nextSeq st + Z.of_nat (length (fst (Wifi.append_all apps st)))).
Proof. apply run_log_seq. Qed.

(** C2, as the code has it. In every run of appends (frames and
    annotations) and resets, the [k]-th entry written carries the
    sequence number [nextSeq + k] reduced modulo [2^32]: each append's
    number is the previous append's plus one, except that 4294967295 is
    followed by 0. A reset zeroes [logCount] and [logHead] and leaves
    [nextSeq] as it is. *)
Theorem seq_numbers_consecutive (ops : list Wifi.LogOp) (st : Wifi.State) :
  0 ≤ Wifi.nextSeq st ≤ UINT32_MAX →
  let (es, st') := Wifi.run_log ops st in
  (∀ (k : nat) e, es !! k = Some e →
     Wifi.seq e = u32 (Wifi.nextSeq st + Z.of_nat k)) ∧
  (∀ (k : nat) e e', es !! k = Some e → es !! S k = Some e' →
     Wifi.seq e' =
       if decide (Wifi.seq e = UINT32_MAX) then 0 else Wifi.seq e + 1) ∧
  Wifi.nextSeq st' = u32 (Wifi.nextSeq st + Z.of_nat (length es)) ∧
  (∀ now s,
     Wifi.nextSeq (Wifi.handleClear now s) = Wifi.nextSeq s ∧
     Wifi.logCount (Wifi.handleClear now s) = 0 ∧
     Wifi.logHead (Wifi.handleClear now s) = 0).
Proof.
  intros Hr. destruct (run_log_seq ops st Hr) as [H1 H2].
  destruct (Wifi.run_log ops st) as [es st']; simpl in *.
  repeat split; try done.
  intros k e e' He He'.
  rewrite (H1 _ _ He), (H1 _ _ He').
  unfold u32, UINT32_MAX in *. case_decide; lia.
Qed.

Lemma seq_numbers_consecutive_witness :
  let ops :=
    [Wifi.OpAppend (Wifi.AppMark 3 [Init.Byte.x4b]);
     Wifi.OpClear 4;
     Wifi.OpAppend (Wifi.AppFrame 9 291 false false 2 (replicate 8 NUL))] in
  let (es, st') := Wifi.run_log ops Wifi.init in
  (∀ (k : nat) e, es !! k = Some e →
     Wifi.seq e = u32 (Wifi.nextSeq Wifi.init + Z.of_nat k)) ∧
  (∀ (k : nat) e e', es !! k = Some e → es !! S k = Some e' →
     Wifi.seq e' =
       if decide (Wifi.seq e = UINT32_MAX) then 0 else Wifi.seq e + 1) ∧
  Wifi.nextSeq st' = u32 (Wifi.nextSeq Wifi.init + Z.of_nat (length es)) ∧
  (∀ now s,
     Wifi.nextSeq (Wifi.handleClear now s) = Wifi.nextSeq s ∧
     Wifi.logCount (Wifi.handleClear now s) = 0 ∧
     Wifi.logHead (Wifi.handleClear now s) = 0).
Proof.
  apply (seq_numbers_consecutive _ Wifi.init). simpl. unfold UINT32_MAX. lia.
Defined.

Lemma seq_wraps_after (n : nat) :
  Z.of_nat n = 4294967296 →
  let apps := replicate n (Wifi.AppMark 0 []) in
  let es := fst (Wifi.append_all apps Wifi.init) in
  ¬ (∀ (k : nat) e e', es !! k = Some e → es !! S k = Some e' →
       Wifi.seq e' = Wifi.seq e + 1).
Proof.
  intros Hn apps es Hall.
  pose proof (append_all_length apps Wifi.init) as Hlen.
  pose proof (append_all_seq apps Wifi.init) as [Hseq _];
    [unfold UINT32_MAX; simpl; lia|].
  change (length es = length apps) in Hlen.
  change (∀ (k : nat) e, es !! k = Some e →
            Wifi.seq e = u32 (1 + Z.of_nat k)) in Hseq.
  clearbody es. unfold apps in Hlen. rewrite length_replicate in Hlen.
  clear apps.
  destruct (lookup_lt_is_Some_2 es (n - 2)) as [e He]; [lia|].
  destruct (lookup_lt_is_Some_2 es (S (n - 2))) as [e' He']; [lia|].
  pose proof (Hall _ e e' He He') as Hstep.
  rewrite (Hseq _ _ He), (Hseq _ _ He') in Hstep.
  unfold u32, UINT32_MAX in Hstep. lia.
Qed.

(** C2 as stated fails: in the run of [2^32] appends from start-up, the
    append number 4294967295 writes the sequence number 4294967295 and
    the next one writes 0, which is not one more. *)
Lemma seq_number_wraps :
  let apps := replicate (Z.to_nat 4294967296) (Wifi.AppMark 0 []) in
  let es := fst (Wifi.append_all apps Wifi.init) in
  ¬ (∀ (k : nat) e e', es !! k = Some e → es !! S k = Some e' →
       Wifi.seq e' = Wifi.seq e + 1).
Proof.
  exact (seq_wraps_after (Z.to_nat 4294967296)
           (Z2Nat.id 4294967296 (Pos2Z.is_nonneg _))).
Qed.

(** ** Annotations *)

Lemma cstring_no_NUL s : NUL ∉ cstring s.
Proof.
  induction s as [|c s IH]; simpl; [apply not_elem_of_nil|].
  case_decide; [apply not_elem_of_nil|].
  rewrite not_elem_of_cons. split; [congruence|done].
Qed.

Lemma cstring_app_NUL p r : NUL ∉ p → cstring (p ++ NUL :: r) = p.
Proof.
  induction p as [|c p IH]; intros Hp.
  - done.
  - apply not_elem_of_cons in Hp as [Hc Hp]. simpl.
    rewrite decide_False by congruence. by rewrite IH.
Qed.

(** [strncpy] writes the string up to [n] bytes and pads with NUL. *)
Lemma strncpy_bytes_spec n : ∀ s,
  strncpy_bytes s n =
  take n (cstring s) ++ replicate (n - length (take n (cstring s))) NUL.
Proof.
  induction n as [|n IH]; intros s; [by rewrite take_0|].
  destruct s as [|c s]; [done|].
  cbn [strncpy_bytes cstring]. case_decide; [done|].
  cbn [take length app Nat.sub]. by rewrite IH.
Qed.

Lemma strncpy_bytes_length n : ∀ s, length (strncpy_bytes s n) = n.
Proof.
  induction n as [|n IH]; intros s; [done|].
  destruct s as [|c s]; simpl; [by rewrite length_replicate|].
  case_decide; simpl; [by rewrite length_replicate | by rewrite IH].
Qed.

(** The 40 bytes [addMarkToLog] leaves in [markText]. *)
Lemma mark_entry_text now text st :
  length (Wifi.markText (Wifi.logBuffer st !!! Z.to_nat (Wifi.logHead st))) = 40%nat →
  Wifi.markText (Wifi.mark_entry now text st) = strncpy_bytes text 39 ++ [NUL].
Proof.
  intros Hlen. unfold Wifi.mark_entry; simpl. unfold strncpy.
  set (old := Wifi.markText _) in *.
  change (Z.to_nat 39) with 39%nat.
  rewrite insert_app_r_alt by (rewrite strncpy_bytes_length; lia).
  rewrite strncpy_bytes_length, Nat.sub_diag. f_equal.
  destruct (drop 39 old) as [|b [|b' l]] eqn:Hd;
    pose proof (f_equal length Hd) as Hl;
    rewrite length_drop in Hl; simpl in Hl; try lia.
  done.
Qed.

Lemma advance_slot e st :
  length (Wifi.logBuffer st) = 500%nat → 0 ≤ Wifi.logHead st < 500 →
  Wifi.logBuffer (Wifi.advance e st) !!! Z.to_nat (Wifi.logHead st) = e.
Proof.
  intros Hlen Hh. unfold Wifi.advance; simpl.
  apply list_lookup_total_insert_eq. lia.
Qed.

(** C10, as the code has it. An annotation request whose text trims to
    empty changes nothing: no entry, no sequence number. Otherwise one
    entry is written at [logHead] with the next sequence number, and its
    [markText] holds the first 39 bytes of the trimmed text (not of the
    text as supplied), padded with NUL to 40 bytes: longer annotations
    are cut at 39 bytes. *)
Theorem handleMark_truncates (now : Z) (msg : list byte) (st : Wifi.State) :
  log_wf st →
  length (Wifi.markText (Wifi.logBuffer st !!! Z.to_nat (Wifi.logHead st))) = 40%nat →
  let st' := Wifi.handleMark now (Some msg) st in
  let e := Wifi.logBuffer st' !!! Z.to_nat (Wifi.logHead st) in
  let kept := take 39 (cstring (trim msg)) in
  (trim msg = [] → st' = st) ∧
  (trim msg ≠ [] →
     Wifi.isMark e = true ∧
     Wifi.seq e = Wifi.nextSeq st ∧
     Wifi.nextSeq st' = u32 (Wifi.nextSeq st + 1) ∧
     Wifi.markText e = kept ++ replicate (40 - length kept) NUL ∧
     cstring (Wifi.markText e) = kept).
Proof.
  intros (Hlen & Hh & _) Hold. simpl. unfold Wifi.handleMark.
  split.
  - intros ->. done.
  - intros Hne.
    destruct (Z.ltb_spec 0 (Z.of_nat (length (trim msg)))) as [_|Hz];
      [|destruct (trim msg); [done|simpl in Hz; lia]].
    unfold Wifi.addMarkToLog. rewrite advance_slot by done.
    rewrite mark_entry_text by done.
    rewrite strncpy_bytes_spec.
    set (kept := take 39 (cstring (trim msg))).
    assert (length kept ≤ 39)%nat as Hk by (unfold kept; rewrite length_take; lia).
    assert (NUL ∉ kept) as Hnul.
    { intros Hin. apply (cstring_no_NUL (trim msg)).
      unfold kept in Hin. apply elem_of_take in Hin as (j & Hj & _).
      by apply list_elem_of_lookup_2 in Hj. }
    repeat split.
    + rewrite <- app_assoc. f_equal.
      replace (40 - length kept)%nat with (39 - length kept + 1)%nat by lia.
      by rewrite replicate_add.
    + rewrite <- app_assoc.
      destruct (39 - length kept)%nat; simpl; by apply cstring_app_NUL.
Qed.

Lemma handleMark_truncates_witness :
  let msg := replicate 45 Init.Byte.x61 in
  let st' := Wifi.handleMark 12 (Some msg) Wifi.init in
  let e := Wifi.logBuffer st' !!! Z.to_nat (Wifi.logHead Wifi.init) in
  let kept := take 39 (cstring (trim msg)) in
  (trim msg = [] → st' = Wifi.init) ∧
  (trim msg ≠ [] →
     Wifi.isMark e = true ∧
     Wifi.seq e = Wifi.nextSeq Wifi.init ∧
     Wifi.nextSeq st' = u32 (Wifi.nextSeq Wifi.init + 1) ∧
     Wifi.markText e = kept ++ replicate (40 - length kept) NUL ∧
     cstring (Wifi.markText e) = kept).
Proof.
  apply (handleMark_truncates 12 (replicate 45 Init.Byte.x61) Wifi.init).
  - unfold log_wf; simpl. repeat split; try lia; reflexivity.
  - reflexivity.
Defined.

(** C10 as stated fails on the supplied text [" A"]: it does not trim to
    empty, and the stored text is ["A"], not the first bytes of the text
    as supplied. *)
Lemma handleMark_stores_trimmed_text :
  let msg := [Init.Byte.x20; Init.Byte.x41] in
  let st' := Wifi.handleMark 0 (Some msg) Wifi.init in
  let e := Wifi.logBuffer st' !!! Z.to_nat (Wifi.logHead Wifi.init) in
  trim msg ≠ [] ∧
  cstring (Wifi.markText e) = [Init.Byte.x41] ∧
  cstring (Wifi.markText e) ≠ take 39 msg.
Proof. vm_compute. repeat split; discriminate. Qed.

(** ** Identifier table *)

Lemma find_id_Some seen id n : ∀ i k,
  0 ≤ i → find_id seen id i n = Some k →
  i ≤ k < i + Z.of_nat n ∧ seen !!! Z.to_nat k = id ∧
  ∀ j, i ≤ j < k → seen !!! Z.to_nat j ≠ id.
Proof.
  induction n as [|n IH]; intros i k Hi Hf; simpl in Hf; [done|].
  case_decide as Hd.
  - injection Hf as <-. repeat split; lia.
  - apply IH in Hf as (Hk & Hid & Hbefore); [|lia].
    split; [lia|]. split; [done|].
    intros j Hj. destruct (decide (j = i)) as [->|]; [done|].
    apply Hbefore. lia.
Qed.

Lemma find_id_None seen id n : ∀ i,
  0 ≤ i → find_id seen id i n = None →
  ∀ j, i ≤ j < i + Z.of_nat n → seen !!! Z.to_nat j ≠ id.
Proof.
  induction n as [|n IH]; intros i Hi Hf j Hj; simpl in Hf; [lia|].
  case_decide as Hd; [done|].
  destruct (decide (j = i)) as [->|]; [done|].
  apply (IH (i + 1)); [lia|done|lia].
Qed.

Lemma occurrences_app id l1 l2 :
  occurrences id (l1 ++ l2) = (occurrences id l1 + occurrences id l2)%nat.
Proof. unfold occurrences. by rewrite filter_app, length_app. Qed.

Lemma occurrences_single_eq id : occurrences id [id] = 1%nat.
Proof. unfold occurrences. by rewrite filter_cons_True. Qed.

Lemma occurrences_single_ne id x : x ≠ id → occurrences id [x] = 0%nat.
Proof. intros. unfold occurrences. by rewrite filter_cons_False. Qed.

Lemma occurrences_not_in id l : id ∉ l → occurrences id l = 0%nat.
Proof.
  unfold occurrences. induction l as [|x l IH]; [done|].
  rewrite not_elem_of_cons. intros [Hne Hl].
  rewrite filter_cons_False by congruence. by apply IH.
Qed.

Lemma occurrences_le id l : (occurrences id l ≤ length l)%nat.
Proof. apply length_filter. Qed.

Lemma occurrences_replicate id n : occurrences id (replicate n id) = n.
Proof.
  unfold occurrences. induction n as [|n IH]; [done|]. simpl.
  rewrite filter_cons_True by done. simpl. by rewrite IH.
Qed.

Lemma u32_succ_mod x : u32 (u32 x + 1) = u32 (x + 1).
Proof. unfold u32, UINT32_MAX. lia. Qed.

Lemma take_succ_insert (seen : list Z) (n : nat) id :
  (n < length seen)%nat →
  take (S n) (<[n := id]> seen) = take n seen ++ [id].
Proof.
  intros Hn. rewrite (take_S_r _ _ id) by (by apply list_lookup_insert_eq).
  by rewrite take_insert_ge by lia.
Qed.

(** An identifier that the search misses is in no held record. *)
Lemma find_id_None_fresh seen id (n : Z) :
  0 ≤ n → find_id seen id 0 (Z.to_nat n) = None →
  id ∉ take (Z.to_nat n) seen.
Proof.
  intros Hn Hf (j & Hj & Hjn)%elem_of_take.
  apply (find_id_None _ _ _ _ (Z.le_refl 0) Hf (Z.of_nat j)); [lia|].
  rewrite Nat2Z.id. by apply list_lookup_total_correct.
Qed.

(** The call finds the identifier at index [k]: its count goes up by one,
    the other counts stay. *)
Lemma table_inv_hit cap calls seen counts n id k :
  table_inv cap calls (seen, counts, n) →
  find_id seen id 0 (Z.to_nat n) = Some k →
  table_inv cap (calls ++ [id])
    (seen, <[Z.to_nat k := u32 (counts !!! Z.to_nat k + 1)]> counts, n).
Proof.
  intros (Hn & Hls & Hlc & Hnd & Hcnt & Hfull) Hf.
  apply find_id_Some in Hf as (Hk & Hid & _); [|lia].
  assert (seen !! Z.to_nat k = Some id) as Hsk.
  { rewrite list_lookup_lookup_total_lt by lia. by rewrite Hid. }
  unfold table_inv. rewrite length_insert.
  split; [done|]. split; [done|]. split; [done|]. split; [done|]. split.
  - intros i id' Hi Hs. destruct (Hcnt _ _ Hi Hs) as [Hin Hc].
    split; [apply elem_of_app; by left|].
    destruct (decide (i = Z.to_nat k)) as [->|Hne].
    + assert (id' = id) as -> by congruence.
      rewrite list_lookup_insert_eq by lia. f_equal.
      rewrite (list_lookup_total_correct _ _ _ Hc).
      rewrite occurrences_app, occurrences_single_eq, u32_succ_mod.
      f_equal. lia.
    + assert (id' ≠ id) as Hid'.
      { intros ->. apply Hne.
        apply (NoDup_lookup (take (Z.to_nat n) seen) _ _ id Hnd);
          rewrite lookup_take_lt by lia; done. }
      rewrite list_lookup_insert_ne by done.
      by rewrite occurrences_app, occurrences_single_ne, Nat.add_0_r.
  - intros Hlt id' [Hin| ->%list_elem_of_singleton]%elem_of_app.
    + by apply Hfull.
    + apply elem_of_take. exists (Z.to_nat k). split; [done|lia].
Qed.

(** The call adds the identifier in the first free slot, with count 1. *)
Lemma table_inv_add cap calls seen counts n id :
  table_inv cap calls (seen, counts, n) →
  find_id seen id 0 (Z.to_nat n) = None → n < cap →
  table_inv cap (calls ++ [id])
    (<[Z.to_nat n := id]> seen, <[Z.to_nat n := 1]> counts, n + 1).
Proof.
  intros (Hn & Hls & Hlc & Hnd & Hcnt & Hfull) Hf Hlt.
  pose proof (find_id_None_fresh _ _ _ (proj1 Hn) Hf) as Hfresh.
  unfold table_inv. rewrite !length_insert.
  replace (Z.to_nat (n + 1)) with (S (Z.to_nat n)) by lia.
  rewrite take_succ_insert by lia.
  split; [lia|]. split; [done|]. split; [done|]. split; [|split].
  - apply NoDup_app. split; [done|]. split; [|apply NoDup_singleton].
    intros x Hx ->%list_elem_of_singleton. done.
  - intros i id' Hi Hs.
    destruct (decide (i = Z.to_nat n)) as [->|Hne].
    + rewrite list_lookup_insert_eq in Hs by lia. injection Hs as <-.
      split; [apply elem_of_app; right; by apply list_elem_of_singleton|].
      rewrite list_lookup_insert_eq by lia. f_equal.
      rewrite occurrences_app, occurrences_single_eq.
      rewrite occurrences_not_in; [done|].
      intros Hin. apply Hfresh. by apply Hfull.
    + rewrite list_lookup_insert_ne in Hs by done.
      rewrite list_lookup_insert_ne by done.
      destruct (Hcnt i id') as [Hin Hc]; [lia|done|].
      split; [apply elem_of_app; by left|].
      assert (id' ≠ id) as Hid'.
      { intros ->. apply Hfresh. apply elem_of_take.
        exists i. split; [done|lia]. }
      by rewrite occurrences_app, occurrences_single_ne, Nat.add_0_r.
  - intros _ id' [Hin| ->%list_elem_of_singleton]%elem_of_app.
    + apply elem_of_app. left. by apply Hfull.
    + apply elem_of_app. right. by apply list_elem_of_singleton.
Qed.

(** The table is full and the identifier is not held: the call is
    dropped, and no held count is off, since the identifier is not one of
    theirs. *)
Lemma table_inv_full cap calls seen counts n id :
  table_inv cap calls (seen, counts, n) →
  find_id seen id 0 (Z.to_nat n) = None → cap ≤ n →
  table_inv cap (calls ++ [id]) (seen, counts, n).
Proof.
  intros (Hn & Hls & Hlc & Hnd & Hcnt & Hfull) Hf Hge.
  pose proof (find_id_None_fresh _ _ _ (proj1 Hn) Hf) as Hfresh.
  unfold table_inv.
  split; [done|]. split; [done|]. split; [done|]. split; [done|]. split.
  - intros i id' Hi Hs. destruct (Hcnt _ _ Hi Hs) as [Hin Hc].
    split; [apply elem_of_app; by left|].
    assert (id' ≠ id) as Hid'.
    { intros ->. apply Hfresh. apply elem_of_take.
      exists i. split; [done|lia]. }
    by rewrite occurrences_app, occurrences_single_ne, Nat.add_0_r.
  - intros Hlt. lia.
Qed.

(** One call keeps the table invariant, the call added to the history. *)
Lemma table_inv_step cap calls tab id :
  table_inv cap calls tab →
  table_inv cap (calls ++ [id]) (record_core cap id tab).
Proof.
  destruct tab as [[seen counts] n]. intros Hinv. unfold record_core.
  destruct (find_id seen id 0 (Z.to_nat n)) as [k|] eqn:Hf.
  - by apply table_inv_hit.
  - destruct (Z.ltb_spec n cap) as [Hlt|Hge].
    + by apply table_inv_add.
    + by apply table_inv_full.
Qed.

Lemma table_inv_reset cap seen counts :
  0 ≤ cap → length seen = Z.to_nat cap → length counts = Z.to_nat cap →
  table_inv cap [] (seen, counts, 0).
Proof.
  intros Hcap Hs Hc. unfold table_inv. repeat split; try done; try lia.
  change (Z.to_nat 0) with 0%nat. rewrite take_0. apply NoDup_nil_2.
Qed.

Lemma table_inv_held calls seen counts n :
  table_inv MAX_UNIQUE_IDS calls (seen, counts, n) →
  held_counts calls seen counts n.
Proof.
  intros (Hn & Hls & Hlc & Hnd & Hcnt & _). unfold MAX_UNIQUE_IDS in *.
  assert (∀ i : nat, Z.of_nat i < n →
            counts !!! i = u32 (Z.of_nat (occurrences (seen !!! i) calls))) as Hmod.
  { intros i Hi. apply list_lookup_total_correct.
    apply Hcnt; [lia|]. apply list_lookup_lookup_total_lt. lia. }
  unfold held_counts, MAX_UNIQUE_IDS. repeat split; try done; try lia.
  intros Hlen i Hi. rewrite Hmod by done.
  pose proof (occurrences_le (seen !!! i) calls).
  unfold u32, UINT32_MAX in *. lia.
Qed.

Lemma wifi_findOrAddId_core id payload len st :
  wifi_table (snd (Wifi.findOrAddId id payload len st)) =
  record_core MAX_UNIQUE_IDS id (wifi_table st).
Proof.
  unfold Wifi.findOrAddId, record_core, wifi_table.
  destruct (find_id _ _ _ _); [done|]. by destruct (_ <? _).
Qed.

Lemma serial_findOrAddId_core id st :
  serial_table (snd (Serial.findOrAddId id st)) =
  record_core MAX_UNIQUE_IDS id (serial_table st).
Proof.
  unfold Serial.findOrAddId, record_core, serial_table.
  destruct (find_id _ _ _ _); [done|]. by destruct (_ <? _).
Qed.

Lemma wifi_record_all_inv cs : ∀ calls st,
  table_inv MAX_UNIQUE_IDS calls (wifi_table st) →
  table_inv MAX_UNIQUE_IDS (calls ++ map Wifi.call_id cs)
    (wifi_table (Wifi.record_all cs st)).
Proof.
  induction cs as [|c cs IH]; intros calls st Hinv; simpl.
  - by rewrite app_nil_r.
  - rewrite (cons_middle _ calls), app_assoc. apply IH.
    rewrite wifi_findOrAddId_core. by apply table_inv_step.
Qed.

Lemma serial_record_all_inv ids : ∀ calls st,
  table_inv MAX_UNIQUE_IDS calls (serial_table st) →
  table_inv MAX_UNIQUE_IDS (calls ++ ids)
    (serial_table (Serial.record_all ids st)).
Proof.
  induction ids as [|id ids IH]; intros calls st Hinv; simpl.
  - by rewrite app_nil_r.
  - rewrite (cons_middle _ calls), app_assoc. apply IH.
    rewrite serial_findOrAddId_core. by apply table_inv_step.
Qed.

(** The search misses an identifier that no held record has, and finds
    the record of one that is held. *)
Lemma find_id_absent seen id (n : Z) :
  0 ≤ n → (Z.to_nat n ≤ length seen)%nat →
  id ∉ take (Z.to_nat n) seen → find_id seen id 0 (Z.to_nat n) = None.
Proof.
  intros Hn Hlen Hid. destruct (find_id _ _ _ _) as [k|] eqn:Hf; [|done].
  apply find_id_Some in Hf as (Hk & Hsk & _); [|lia].
  exfalso. apply Hid. apply elem_of_take. exists (Z.to_nat k).
  split; [|lia]. rewrite list_lookup_lookup_total_lt by lia. by rewrite Hsk.
Qed.

Lemma find_id_held seen id (n : Z) (i : nat) :
  (Z.to_nat n ≤ length seen)%nat → NoDup (take (Z.to_nat n) seen) →
  Z.of_nat i < n → seen !!! i = id →
  find_id seen id 0 (Z.to_nat n) = Some (Z.of_nat i).
Proof.
  intros Hlen Hnd Hi Hsi.
  destruct (find_id _ _ _ _) as [k|] eqn:Hf.
  - apply find_id_Some in Hf as (Hk & Hsk & _); [|lia].
    f_equal. enough (Z.to_nat k = i) by lia.
    apply (NoDup_lookup (take (Z.to_nat n) seen) _ _ id Hnd);
      rewrite lookup_take_lt by lia;
      rewrite list_lookup_lookup_total_lt by lia; congruence.
  - exfalso. apply (find_id_None _ _ _ _ (Z.le_refl 0) Hf (Z.of_nat i)); [lia|].
    by rewrite Nat2Z.id.
Qed.

(** C1, as the code has it. After any run of [findOrAddId] calls on a
    table reset before ([uniqueIdCount = 0]), in the WiFi program and in
    the serial one: at most 256 records are held, their identifiers are
    distinct, and each held count is the number of calls made with that
    identifier, reduced modulo [2^32] (the count is an [unsigned long]),
    hence the exact number as long as fewer than [2^32] calls were made.
    In a full table a call with an identifier that is not held returns
    -1 and changes nothing, and a call with a held identifier returns
    its index and increments its count. *)
Theorem table_counts (st : Wifi.State) (cs : list Wifi.Call)
    (sst : Serial.State) (ids : list Z) :
  length (Wifi.seenIds st) = 256%nat →
  length (Wifi.idCounts st) = 256%nat →
  Wifi.uniqueIdCount st = 0 →
  length (Serial.seenIds sst) = 256%nat →
  length (Serial.idCounts sst) = 256%nat →
  Serial.uniqueIdCount sst = 0 →
  let st' := Wifi.record_all cs st in
  let sst' := Serial.record_all ids sst in
  held_counts (map Wifi.call_id cs)
    (Wifi.seenIds st') (Wifi.idCounts st') (Wifi.uniqueIdCount st') ∧
  held_counts ids
    (Serial.seenIds sst') (Serial.idCounts sst') (Serial.uniqueIdCount sst') ∧
  (∀ id payload len,
     Wifi.uniqueIdCount st' = MAX_UNIQUE_IDS →
     id ∉ take 256 (Wifi.seenIds st') →
     Wifi.findOrAddId id payload len st' = (-1, st')) ∧
  (∀ id,
     Serial.uniqueIdCount sst' = MAX_UNIQUE_IDS →
     id ∉ take 256 (Serial.seenIds sst') →
     Serial.findOrAddId id sst' = (-1, sst')) ∧
  (∀ (i : nat) payload len,
     Z.of_nat i < Wifi.uniqueIdCount st' →
     let r := Wifi.findOrAddId (Wifi.seenIds st' !!! i) payload len st' in
     fst r = Z.of_nat i ∧
     Wifi.uniqueIdCount (snd r) = Wifi.uniqueIdCount st' ∧
     Wifi.idCounts (snd r) !!! i = u32 (Wifi.idCounts st' !!! i + 1)) ∧
  (∀ i : nat,
     Z.of_nat i < Serial.uniqueIdCount sst' →
     let r := Serial.findOrAddId (Serial.seenIds sst' !!! i) sst' in
     fst r = Z.of_nat i ∧
     Serial.uniqueIdCount (snd r) = Serial.uniqueIdCount sst' ∧
     Serial.idCounts (snd r) !!! i = u32 (Serial.idCounts sst' !!! i + 1)).
Proof.
  intros Hws Hwc Hwn Hss Hsc Hsn st' sst'.
  assert (table_inv MAX_UNIQUE_IDS (map Wifi.call_id cs) (wifi_table st')) as Hw.
  { apply (wifi_record_all_inv cs [] st). unfold wifi_table. rewrite Hwn.
    by apply table_inv_reset. }
  assert (table_inv MAX_UNIQUE_IDS ids (serial_table sst')) as Hs.
  { apply (serial_record_all_inv ids [] sst). unfold serial_table. rewrite Hsn.
    by apply table_inv_reset. }
  split; [by apply table_inv_held|]. split; [by apply table_inv_held|].
  destruct Hw as (Hwn' & Hwls & Hwlc & Hwnd & _).
  destruct Hs as (Hsn' & Hsls & Hslc & Hsnd & _).
  unfold MAX_UNIQUE_IDS in *. repeat split.
  - intros id payload len Hfull Hid. unfold Wifi.findOrAddId.
    rewrite find_id_absent; [|lia|lia|by rewrite Hfull].
    rewrite Hfull. done.
  - intros id Hfull Hid. unfold Serial.findOrAddId.
    rewrite find_id_absent; [|lia|lia|by rewrite Hfull].
    rewrite Hfull. done.
  - unfold Wifi.findOrAddId. by rewrite (find_id_held _ _ _ i) by (done || lia).
  - unfold Wifi.findOrAddId. by rewrite (find_id_held _ _ _ i) by (done || lia).
  - unfold Wifi.findOrAddId. rewrite (find_id_held _ _ _ i) by (done || lia).
    simpl. rewrite Nat2Z.id. apply list_lookup_total_insert_eq. lia.
  - unfold Serial.findOrAddId. by rewrite (find_id_held _ _ _ i) by (done || lia).
  - unfold Serial.findOrAddId. by rewrite (find_id_held _ _ _ i) by (done || lia).
  - unfold Serial.findOrAddId. rewrite (find_id_held _ _ _ i) by (done || lia).
    simpl. rewrite Nat2Z.id. apply list_lookup_total_insert_eq. lia.
Qed.

Lemma table_counts_witness :
  let cs :=
    [{| Wifi.call_id := 291; Wifi.call_data := replicate 8 NUL; Wifi.call_dlc := 8 |};
     {| Wifi.call_id := 1110; Wifi.call_data := replicate 8 NUL; Wifi.call_dlc := 2 |};
     {| Wifi.call_id := 291; Wifi.call_data := replicate 8 NUL; Wifi.call_dlc := 8 |}] in
  let ids := [291; 1110; 291] in
  let st' := Wifi.record_all cs Wifi.init in
  let sst' := Serial.record_all ids Serial.init in
  held_counts (map Wifi.call_id cs)
    (Wifi.seenIds st') (Wifi.idCounts st') (Wifi.uniqueIdCount st') ∧
  held_counts ids
    (Serial.seenIds sst') (Serial.idCounts sst') (Serial.uniqueIdCount sst').
Proof.
  intros cs ids st' sst'.
  pose proof (table_counts Wifi.init cs Serial.init ids) as H.
  split; apply H; reflexivity.
Defined.

Lemma table_count_wraps_after (n : nat) :
  Z.of_nat n = 4294967296 →
  let c := {| Wifi.call_id := 291; Wifi.call_data := replicate 8 NUL;
              Wifi.call_dlc := 8 |} in
  let cs := replicate n c in
  let st' := Wifi.record_all cs Wifi.init in
  0 < Wifi.uniqueIdCount st' ∧
  ¬ (∀ i : nat, Z.of_nat i < Wifi.uniqueIdCount st' →
       Wifi.idCounts st' !!! i =
       Z.of_nat (occurrences (Wifi.seenIds st' !!! i) (map Wifi.call_id cs))).
Proof.
  intros Hn c cs st'.
  assert (table_inv MAX_UNIQUE_IDS (map Wifi.call_id cs) (wifi_table st')) as Hw.
  { apply (wifi_record_all_inv cs [] Wifi.init). by apply table_inv_reset. }
  assert (map Wifi.call_id cs = replicate n 291) as Hcalls
    by (unfold cs; by rewrite fmap_replicate).
  rewrite Hcalls in *. clear Hcalls. clearbody st'. clear cs.
  destruct Hw as (Hk & Hls & Hlc & Hnd & Hcnt & Hfull).
  unfold wifi_table, MAX_UNIQUE_IDS in *.
  assert (0 < Wifi.uniqueIdCount st') as Hpos.
  { destruct (decide (Wifi.uniqueIdCount st' < 256)) as [Hlt|]; [|lia].
    assert (291 ∈ take (Z.to_nat (Wifi.uniqueIdCount st')) (Wifi.seenIds st')) as Hin.
    { apply Hfull; [done|]. apply elem_of_replicate. split; [done|lia]. }
    apply elem_of_take in Hin as (j & _ & Hj). lia. }
  split; [done|]. intros Hexact.
  specialize (Hexact 0%nat Hpos).
  destruct (Hcnt 0%nat (Wifi.seenIds st' !!! 0%nat)) as [Hin Hc]; [lia| |].
  { apply list_lookup_lookup_total_lt. lia. }
  apply elem_of_replicate_inv in Hin. rewrite Hin in *.
  apply list_lookup_total_correct in Hc.
  rewrite occurrences_replicate in *.
  rewrite Hc in Hexact. unfold u32, UINT32_MAX in Hexact. lia.
Qed.

(** C1 as stated fails: after [2^32] calls with the identifier 0x123
    from start-up, the table holds a record, and a held record's count
    is not the number of calls made with its identifier (the record of
    0x123 counts 0 after 4294967296 calls). *)
Lemma table_count_wraps :
  let c := {| Wifi.call_id := 291; Wifi.call_data := replicate 8 NUL;
              Wifi.call_dlc := 8 |} in
  let cs := replicate (Z.to_nat 4294967296) c in
  let st' := Wifi.record_all cs Wifi.init in
  0 < Wifi.uniqueIdCount st' ∧
  ¬ (∀ i : nat, Z.of_nat i < Wifi.uniqueIdCount st' →
       Wifi.idCounts st' !!! i =
       Z.of_nat (occurrences (Wifi.seenIds st' !!! i) (map Wifi.call_id cs))).
Proof.
  exact (table_count_wraps_after (Z.to_nat 4294967296)
           (Z2Nat.id 4294967296 (Pos2Z.is_nonneg _))).
Qed.

(** C9. When [findOrAddId] finds the identifier at index [i] and the
    payload length [len] is at most 8, the row [lastData[i]] gets the
    first [len] bytes of the payload in its bytes [0 .. len-1] and keeps
    its bytes [len .. 7]. *)
Theorem lastData_partial_overwrite (id : Z) (payload : list byte) (len : Z)
    (st : Wifi.State) (i : Z) :
  find_id (Wifi.seenIds st) id 0 (Z.to_nat (Wifi.uniqueIdCount st)) = Some i →
  0 ≤ len ≤ 8 →
  length payload = 8%nat →
  length (Wifi.lastData st) = 256%nat →
  Wifi.uniqueIdCount st ≤ 256 →
  length (Wifi.lastData st !!! Z.to_nat i) = 8%nat →
  let st' := snd (Wifi.findOrAddId id payload len st) in
  let old := Wifi.lastData st !!! Z.to_nat i in
  let new := Wifi.lastData st' !!! Z.to_nat i in
  fst (Wifi.findOrAddId id payload len st) = i ∧
  length new = 8%nat ∧
  (∀ j : nat, Z.of_nat j < len → new !! j = payload !! j) ∧
  (∀ j : nat, len ≤ Z.of_nat j < 8 → new !! j = old !! j).
Proof.
  intros Hf Hlen Hp Hld Hn Hrow. simpl.
  pose proof Hf as Hf'. apply find_id_Some in Hf' as (Hi & _ & _); [|lia].
  unfold Wifi.findOrAddId. rewrite Hf. simpl.
  rewrite list_lookup_total_insert_eq by lia.
  unfold memcpy. repeat split.
  - rewrite length_app, length_take, length_drop. lia.
  - intros j Hj. rewrite lookup_app_l by (rewrite length_take; lia).
    apply lookup_take_lt. lia.
  - intros j Hj. rewrite lookup_app_r by (rewrite length_take; lia).
    rewrite length_take, lookup_drop. f_equal. lia.
Qed.

Lemma lastData_partial_overwrite_witness :
  let p1 := replicate 8 Init.Byte.xff in
  let p2 := replicate 8 Init.Byte.x11 in
  let st := snd (Wifi.findOrAddId 291 p1 8 Wifi.init) in
  let st' := snd (Wifi.findOrAddId 291 p2 3 st) in
  let old := Wifi.lastData st !!! Z.to_nat 0 in
  let new := Wifi.lastData st' !!! Z.to_nat 0 in
  fst (Wifi.findOrAddId 291 p2 3 st) = 0 ∧
  length new = 8%nat ∧
  (∀ j : nat, Z.of_nat j < 3 → new !! j = p2 !! j) ∧
  (∀ j : nat, 3 ≤ Z.of_nat j < 8 → new !! j = old !! j).
Proof.
  intros p1 p2 st.
  apply (lastData_partial_overwrite 291 p2 3 st 0);
    try reflexivity; vm_compute; intuition discriminate.
Defined.

(** ** binary32: the scores are ordered *)

Lemma shr_1_nonneg mrs : 0 ≤ shr_m mrs → 0 ≤ shr_m (shr_1 mrs).
Proof.
  destruct mrs as [m r s]. destruct m as [|p|p]; simpl; try lia;
    destruct p; simpl; lia.
Qed.

Lemma iter_pos_shr_1_nonneg p : ∀ mrs,
  0 ≤ shr_m mrs → 0 ≤ shr_m (SpecFloat.iter_pos shr_1 p mrs).
Proof.
  induction p as [p IH|p IH|]; intros mrs Hm; simpl.
  - apply IH, IH. by apply shr_1_nonneg.
  - by apply IH, IH.
  - by apply shr_1_nonneg.
Qed.

Lemma shr_fexp_nonneg m e l :
  0 ≤ m → 0 ≤ shr_m (fst (shr_fexp 24 128 m e l)).
Proof.
  intros Hm. unfold shr_fexp, shr.
  assert (0 ≤ shr_m (shr_record_of_loc m l)) as Hrec.
  { destruct l as [|[]]; simpl; lia. }
  destruct (fexp 24 128 (Zdigits2 m + e) - e); simpl; try done.
  by apply iter_pos_shr_1_nonneg.
Qed.

Lemma round_nearest_even_nonneg m l : 0 ≤ m → 0 ≤ round_nearest_even m l.
Proof.
  intros Hm. destruct l as [|[]]; simpl; try lia. destruct (Z.even m); lia.
Qed.

(** Rounding a non-negative mantissa with sign [+] gives no NaN and no
    negative value. *)
Lemma binary_round_aux_nonneg m e l :
  0 ≤ m → f32_nonneg (binary_round_aux 24 128 false m e l).
Proof.
  intros Hm. unfold binary_round_aux.
  pose proof (shr_fexp_nonneg m e l Hm) as H1.
  destruct (shr_fexp 24 128 m e l) as [mrs' e']. simpl in H1.
  pose proof (shr_fexp_nonneg _ e' loc_Exact
                (round_nearest_even_nonneg _ (loc_of_shr_record mrs') H1)) as H2.
  destruct (shr_fexp 24 128 _ e' loc_Exact) as [mrs'' e'']. simpl in H2.
  destruct (shr_m mrs'') as [|p|p]; simpl; try done; try lia.
  by destruct (e'' <=? 128 - 24).
Qed.

Lemma f32_of_Z_nonneg n : 0 ≤ n → f32_nonneg (f32_of_Z n).
Proof.
  intros Hn. unfold f32_of_Z, binary_normalize.
  destruct n as [|p|p]; [done| |lia].
  unfold binary_round. destruct (shl_align _ _ _) as [mz ez].
  by apply binary_round_aux_nonneg.
Qed.

Lemma f32_div_nonneg x my ey :
  f32_nonneg x → f32_nonneg (f32_div x (S754_finite false my ey)).
Proof.
  unfold f32_div. destruct x as [s|s| |s mx ex]; simpl; try done.
  - intros ->. done.
  - intros ->. unfold SFdiv_core_binary.
    set (m' := match _ - _ - _ with Z0 => _ | Zpos _ => _ | Zneg _ => _ end).
    assert (0 ≤ m') as Hm'.
    { unfold m'. destruct (_ - _ - _); try lia. by apply Z.shiftl_nonneg. }
    pose proof (Z_div_mod m' (Zpos my) eq_refl) as Hdiv.
    destruct (Z.div_eucl m' (Zpos my)) as [q r].
    apply binary_round_aux_nonneg. nia.
Qed.

Lemma f32_mul_nonneg x my ey :
  f32_nonneg x → f32_nonneg (f32_mul x (S754_finite false my ey)).
Proof.
  unfold f32_mul. destruct x as [s|s| |s mx ex]; simpl; try done.
  - intros ->. done.
  - intros ->. by apply binary_round_aux_nonneg.
Qed.

(** The identifier counts 1 to 64 convert to positive finite values. *)
Lemma f32_of_Z_small ids :
  0 < ids ≤ 64 → ∃ m e, f32_of_Z ids = S754_finite false m e.
Proof.
  intros Hids.
  assert (Forall (λ i, ∃ m e, f32_of_Z i = S754_finite false m e) (seqZ 1 64))
    as Hall.
  { repeat (rewrite seqZ_cons by done; apply Forall_cons; split;
            [vm_compute; eauto|]; simpl).
    rewrite seqZ_nil by done. apply Forall_nil_2. }
  rewrite Forall_seqZ in Hall. apply Hall. lia.
Qed.

Lemma score_nonneg msgs ids :
  0 ≤ msgs → 0 ≤ ids ≤ 64 → f32_nonneg (score msgs ids).
Proof.
  intros Hm Hi. unfold score.
  assert (f32_nonneg (repeatRate msgs ids)) as Hrr.
  { unfold repeatRate.
    destruct (Z.ltb_spec 0 ids); simpl; [|done].
    destruct (Z.ltb_spec 0 msgs); simpl; [|done].
    destruct (f32_of_Z_small ids) as (my & ey & ->); [lia|].
    by apply f32_div_nonneg, f32_of_Z_nonneg. }
  destruct (30 <? ids); [|done]. by apply f32_mul_nonneg.
Qed.

Lemma f32_gt_rank a b :
  f32_nonneg a → f32_nonneg b →
  f32_gt a b = true ↔ lex_lt (f32_rank b) (f32_rank a).
Proof.
  unfold f32_gt, SFltb.
  destruct a as [sa|sa| |sa ma ea], b as [sb|sb| |sb mb eb]; simpl;
    try done; try (intros -> ->); try (intros _ ->); try (intros -> _);
    try (intros _ _); simpl; try (split; [done|lia]); try (split; [lia|done]).
  change (PosDef.Pos.compare_cont Eq mb ma) with (Pos.compare mb ma).
  destruct (Z.compare_spec eb ea) as [->| |];
    [destruct (Pos.compare_spec mb ma)| |]; split; (done || lia).
Qed.

Lemma f32_gt_trans a b c :
  f32_nonneg a → f32_nonneg b → f32_nonneg c →
  f32_gt a b = true → f32_gt b c = true → f32_gt a c = true.
Proof.
  intros Ha Hb Hc. rewrite !f32_gt_rank by done.
  destruct (f32_rank a) as [[??]?], (f32_rank b) as [[??]?],
    (f32_rank c) as [[??]?]. unfold lex_lt. lia.
Qed.

Lemma f32_gt_ge_trans a b c :
  f32_nonneg a → f32_nonneg b → f32_nonneg c →
  f32_gt a b = true → f32_gt c b = false → f32_gt a c = true.
Proof.
  intros Ha Hb Hc. rewrite <- not_true_iff_false. rewrite !f32_gt_rank by done.
  destruct (f32_rank a) as [[??]?], (f32_rank b) as [[??]?],
    (f32_rank c) as [[??]?]. unfold lex_lt. lia.
Qed.

(** ** The scan: trials and selection *)

Lemma trial_frame_range rxId t : trial_range t → trial_range (trial_frame rxId t).
Proof.
  unfold trial_range, trial_frame, SCAN_IDS. intros [Hn Hm].
  pose proof (u32_range (scanMsgCount t + 1)).
  destruct (find_id _ _ _ _); simpl; [lia|].
  destruct (Z.ltb_spec (scanUniqueIds t) 64); simpl; lia.
Qed.

Lemma trial_init_range : trial_range trial_init.
Proof. unfold trial_range, SCAN_IDS, UINT32_MAX. simpl. lia. Qed.

Lemma wifi_trial_from_range ps : ∀ t,
  trial_range t → trial_range (Wifi.trial_from t ps).
Proof.
  induction ps as [|p ps IH]; intros t Ht; [done|]. simpl. apply IH.
  destruct p; simpl; try done. by apply trial_frame_range.
Qed.

Lemma serial_trial_from_range ps : ∀ t,
  trial_range (Serial.table t) →
  trial_range (Serial.table (Serial.trial_from t ps)).
Proof.
  induction ps as [|p ps IH]; intros t Ht; [done|]. simpl. apply IH.
  destruct p; simpl; try done. by apply trial_frame_range.
Qed.

Lemma cand_score_nonneg run w s :
  (∀ ps, trial_range (run ps)) → cand_score run w = Some s → f32_nonneg s.
Proof.
  intros Hrun. unfold cand_score. destruct (init_ok w); [|done].
  intros [= <-]. destruct (Hrun (polls w)) as [Hn Hm].
  unfold SCAN_IDS in Hn. apply score_nonneg; lia.
Qed.

(** One turn of the loop keeps the invariant of the selection. *)
Lemma scan_body_best run prev b w acc :
  (∀ ps, trial_range (run ps)) →
  best_inv prev (bestRate acc) (bestScore acc) →
  let acc' := scan_body run (Z.of_nat (length prev)) b w acc in
  best_inv (prev ++ [cand_score run w]) (bestRate acc') (bestScore acc').
Proof.
  intros Hrun (Hbs & Hnn & Hinv). simpl.
  pose proof (cand_score_nonneg run w) as Hs.
  unfold scan_body, cand_score in *.
  destruct (init_ok w); simpl.
  - (* the trial ran *)
    set (s := score _ _) in *. specialize (Hs s Hrun eq_refl).
    assert (∀ (j : nat) s', (prev ++ [Some s]) !! j = Some (Some s') →
              f32_nonneg s') as Hnn'.
    { intros j s' Hj. apply lookup_app_Some in Hj as [Hj|[_ Hj]]; [by eapply Hnn|].
      apply list_lookup_singleton_Some in Hj as [_ [= <-]]. done. }
    destruct (f32_gt s (bestScore acc)) eqn:Hgt; simpl.
    + (* a new best *)
      split; [done|]. split; [done|]. right.
      split; [lia|]. rewrite Nat2Z.id.
      split; [by rewrite lookup_app_r, Nat.sub_diag by lia|].
      assert (f32_gt s (f32_of_Z 0) = true) as Hpos.
      { destruct Hinv as [(_ & Hz & _)|(_ & _ & Hz & _)]; [by rewrite <- Hz|].
        by apply (f32_gt_trans s (bestScore acc)). }
      split; [done|]. intros j s' Hj.
      split; [|intros Hlt; apply lookup_lt_Some in Hj;
               rewrite length_app in Hj; simpl in Hj; lia].
      intros Hlt. rewrite lookup_app_l in Hj by lia.
      destruct Hinv as [(_ & Hz & Hall)|(Hb & Hbest & _ & Hall)].
      * apply (f32_gt_ge_trans s (f32_of_Z 0)); try done; [by eapply Hnn|].
        by eapply Hall.
      * destruct (Hall _ _ Hj) as [Hlo Hhi].
        destruct (Z.lt_trichotomy (Z.of_nat j) (bestRate acc)) as [Hc|[Hc|Hc]].
        -- apply (f32_gt_trans s (bestScore acc)); try done; [by eapply Hnn|].
           by apply Hlo.
        -- replace (Z.to_nat (bestRate acc)) with j in Hbest by lia.
           rewrite Hj in Hbest. by injection Hbest as ->.
        -- apply (f32_gt_ge_trans s (bestScore acc)); try done; [by eapply Hnn|].
           by apply Hhi.
    + (* the best stays *)
      split; [done|]. split; [done|].
      destruct Hinv as [(Hb & Hz & Hall)|(Hb & Hbest & Hz & Hall)].
      * left. split; [done|]. split; [done|]. intros j s' Hj.
        apply lookup_app_Some in Hj as [Hj|[_ Hj]]; [by eapply Hall|].
        apply list_lookup_singleton_Some in Hj as [_ [= <-]]. by rewrite <- Hz.
      * right. split; [done|].
        pose proof (lookup_lt_Some _ _ _ Hbest) as Hlen.
        split; [by rewrite lookup_app_l by lia|]. split; [done|].
        intros j s' Hj.
        apply lookup_app_Some in Hj as [Hj|[Hge Hj]]; [by apply Hall|].
        apply list_lookup_singleton_Some in Hj as [Hj0 [= <-]].
        split; [lia|done].
  - (* initCAN failed: the candidate is skipped *)
    split; [done|].
    assert (∀ (j : nat) s', (prev ++ [None]) !! j = Some (Some s') →
              prev !! j = Some (Some s')) as Hold.
    { intros j s' Hj. apply lookup_app_Some in Hj as [Hj|[_ Hj]]; [done|].
      by apply list_lookup_singleton_Some in Hj as [_ ?]. }
    split; [intros j s' Hj; by eapply Hnn, Hold|].
    destruct Hinv as [(Hb & Hz & Hall)|(Hb & Hbest & Hz & Hall)].
    + left. split; [done|]. split; [done|]. intros j s' Hj. by eapply Hall, Hold.
    + right. split; [done|].
      pose proof (lookup_lt_Some _ _ _ Hbest) as Hlen.
      split; [by rewrite lookup_app_l by lia|]. split; [done|].
      intros j s' Hj. by apply Hall, Hold.
Qed.

Lemma scan_loop_best run cands : ∀ prev acc,
  (∀ ps, trial_range (run ps)) →
  best_inv prev (bestRate acc) (bestScore acc) →
  let acc' := scan_loop run cands (Z.of_nat (length prev)) acc in
  best_inv (prev ++ map (λ bw, cand_score run bw.2) cands)
    (bestRate acc') (bestScore acc').
Proof.
  induction cands as [|[b w] cands IH]; intros prev acc Hrun Hinv; simpl.
  - by rewrite app_nil_r.
  - rewrite (cons_middle _ prev), app_assoc.
    replace (Z.of_nat (length prev) + 1)
      with (Z.of_nat (length (prev ++ [cand_score run w])))
      by (rewrite length_app; simpl; lia).
    apply IH; [done|]. by apply scan_body_best.
Qed.

Lemma best_inv_best_of scores best bs : best_inv scores best bs → best_of scores best.
Proof.
  intros (_ & _ & [(Hb & _ & Hall)|(Hb & Hbest & Hz & Hall)]).
  - left. done.
  - right. split; [done|]. by exists bs.
Qed.

(** The loop over the four rates returns a [bestRate] that is the best
    of the candidates' scores. *)
Lemma scan_all_best run bus :
  (∀ ps, trial_range (run ps)) →
  best_of (map (λ b, cand_score run (bus b)) rates)
    (bestRate (scan_all run bus)).
Proof.
  intros Hrun. unfold scan_all.
  apply (best_inv_best_of _ _
           (bestScore (scan_loop run (map (λ b, (b, bus b)) rates) 0 scan_start))).
  apply (scan_loop_best run (map (λ b, (b, bus b)) rates) [] scan_start Hrun).
  split; [done|]. split; [intros j s Hj; by rewrite lookup_nil in Hj|].
  left. split; [done|]. split; [done|].
  intros j s Hj. by rewrite lookup_nil in Hj.
Qed.

(** No rate is selected exactly when no candidate scored above zero. *)
Lemma best_of_none scores best :
  best_of scores best →
  best = -1 ↔
  ∀ (j : nat) s, scores !! j = Some (Some s) → f32_gt s (f32_of_Z 0) = false.
Proof.
  intros [(Hb & Hall)|(Hb & sb & Hbest & Hz & _)]; split; try done; try lia.
  intros Hall. rewrite (Hall _ _ Hbest) in Hz. done.
Qed.

Lemma wifi_trial_run_range ps : trial_range (Wifi.trial_run ps).
Proof. apply wifi_trial_from_range, trial_init_range. Qed.

Lemma serial_trial_run_range ps : trial_range (Serial.table (Serial.trial_run ps)).
Proof. apply serial_trial_from_range, trial_init_range. Qed.

(** C3. In both programs a scan scores each candidate by its repeat
    rate, multiplied by [0.1f] when more than 30 identifiers were seen;
    the rate selected is the first candidate, in the order of [rates],
    whose score is above zero, above the score of every earlier candidate
    and not below the score of any later one (only [score > bestScore]
    replaces the best); when no candidate scores above zero, [bestRate]
    stays -1 and the state, with [currentBaud], is left as it was. *)
Theorem scan_selects_highest_score (bus : can_baud_t → RateTrial) (now : Z)
    (wst : Wifi.State) (sst : Serial.State) :
  let wscores := map (λ b, cand_score Wifi.trial_run (bus b)) rates in
  let sscores :=
    map (λ b, cand_score (λ ps, Serial.table (Serial.trial_run ps)) (bus b))
      rates in
  let wr := Wifi.handleScan bus wst in
  let sr := Serial.autoScan now bus sst in
  (∀ msgs ids,
     score msgs ids =
       if 30 <? ids then f32_mul (repeatRate msgs ids) f32_0_1
       else repeatRate msgs ids) ∧
  best_of wscores (bestRate (fst wr)) ∧
  best_of sscores (bestRate (fst sr)) ∧
  (bestRate (fst wr) = -1 ↔
   ∀ (j : nat) s, wscores !! j = Some (Some s) → f32_gt s (f32_of_Z 0) = false) ∧
  (bestRate (fst sr) = -1 ↔
   ∀ (j : nat) s, sscores !! j = Some (Some s) → f32_gt s (f32_of_Z 0) = false) ∧
  (bestRate (fst wr) = -1 → snd wr = wst) ∧
  (bestRate (fst sr) = -1 → snd sr = sst) ∧
  (0 ≤ bestRate (fst wr) →
     Wifi.currentBaud (snd wr) = rates !!! Z.to_nat (bestRate (fst wr))) ∧
  (0 ≤ bestRate (fst sr) →
     Serial.currentBaud (snd sr) = rates !!! Z.to_nat (bestRate (fst sr))).
Proof.
  intros wscores sscores wr sr.
  pose proof (scan_all_best Wifi.trial_run bus wifi_trial_run_range) as Hw.
  pose proof (scan_all_best (λ ps, Serial.table (Serial.trial_run ps)) bus
                serial_trial_run_range) as Hs.
  fold wscores in Hw. fold sscores in Hs.
  assert (bestRate (fst wr) = bestRate (scan_all Wifi.trial_run bus)) as Hwb.
  { unfold wr, Wifi.handleScan. by destruct (0 <=? _). }
  assert (bestRate (fst sr) =
          bestRate (scan_all (λ ps, Serial.table (Serial.trial_run ps)) bus))
    as Hsb.
  { unfold sr, Serial.autoScan. by destruct (0 <=? _). }
  rewrite <- Hwb in Hw. rewrite <- Hsb in Hs.
  split; [done|]. split; [done|]. split; [done|].
  split; [by apply best_of_none|]. split; [by apply best_of_none|].
  clear Hw Hs. revert Hwb Hsb. unfold wr, sr, Wifi.handleScan, Serial.autoScan.
  destruct (Z.leb_spec 0 (bestRate (scan_all Wifi.trial_run bus)));
    destruct (Z.leb_spec 0 (bestRate
                (scan_all (λ ps, Serial.table (Serial.trial_run ps)) bus)));
    simpl; intros Hwb Hsb; repeat split; try done; lia.
Qed.

Lemma repeatRate_matches_spec t :
  trial_range t →
  repeatRate (scanMsgCount t) (scanUniqueIds t) = repeatRate_spec t.
Proof.
  intros [Hn Hm]. unfold repeatRate, repeatRate_spec, SCAN_IDS in *.
  destruct (Z.eqb_spec (scanUniqueIds t) 0) as [->|Hne]; [done|].
  destruct (Z.ltb_spec 0 (scanUniqueIds t)); [|lia]. simpl.
  destruct (Z.ltb_spec 0 (scanMsgCount t)); [done|].
  replace (scanMsgCount t) with 0 by lia.
  destruct (f32_of_Z_small (scanUniqueIds t)) as (m & e & ->); [lia|]. done.
Qed.

(** C4. For the counts [msgs] and [ids] of a completed trial the verdict
    is [NoData] exactly when [msgs = 0]; otherwise [LikelyCorrect]
    exactly when [ids <= 20] and [repeatRate > 10]; otherwise [Noise]
    exactly when [ids > 30]; otherwise [Uncertain]. For the table a
    trial leaves, in either program, [repeatRate] is the binary32
    quotient of the message count by the identifier count, and zero when
    no identifier was seen. *)
Theorem verdict_classification (msgs ids : Z) (ps : list Poll) :
  let likely :=
    ids ≤ 20 ∧ f32_gt (repeatRate msgs ids) (f32_of_Z 10) = true in
  (verdict msgs ids = NoData ↔ msgs = 0) ∧
  (verdict msgs ids = LikelyCorrect ↔ msgs ≠ 0 ∧ likely) ∧
  (verdict msgs ids = Noise ↔ msgs ≠ 0 ∧ ¬ likely ∧ 30 < ids) ∧
  (verdict msgs ids = Uncertain ↔ msgs ≠ 0 ∧ ¬ likely ∧ ids ≤ 30) ∧
  (let t := Wifi.trial_run ps in
   repeatRate (scanMsgCount t) (scanUniqueIds t) = repeatRate_spec t) ∧
  (let t := Serial.table (Serial.trial_run ps) in
   repeatRate (scanMsgCount t) (scanUniqueIds t) = repeatRate_spec t).
Proof.
  cbv zeta.
  assert (∀ A B C D E F : Prop, (A ∧ B ∧ C ∧ D) → E → F →
            A ∧ B ∧ C ∧ D ∧ E ∧ F) as Hsplit by tauto.
  apply Hsplit; clear Hsplit.
  - unfold verdict.
    destruct (Z.eqb_spec msgs 0) as [Hm|Hm];
      destruct (Z.leb_spec ids 20) as [H20|H20];
      destruct (f32_gt (repeatRate msgs ids) (f32_of_Z 10)) eqn:Hgt;
      destruct (Z.ltb_spec 30 ids) as [H30|H30]; cbn [andb];
      repeat split; intros; try discriminate; try lia; try done;
      intuition (discriminate || lia || congruence).
  - apply repeatRate_matches_spec, wifi_trial_run_range.
  - apply repeatRate_matches_spec, serial_trial_run_range.
Qed.

(** ** Receive errors during a scan trial *)

Lemma error_count_app ps1 ps2 :
  error_count (ps1 ++ ps2) = (error_count ps1 + error_count ps2)%nat.
Proof. unfold error_count. by rewrite filter_app, length_app. Qed.

Lemma serial_trial_from_app t ps1 ps2 :
  Serial.trial_from t (ps1 ++ ps2) =
  Serial.trial_from (Serial.trial_from t ps1) ps2.
Proof. apply fold_left_app. Qed.

Lemma wifi_trial_from_app t ps1 ps2 :
  Wifi.trial_from t (ps1 ++ ps2) = Wifi.trial_from (Wifi.trial_from t ps1) ps2.
Proof. apply fold_left_app. Qed.

Lemma serial_trial_from_cons t p ps :
  Serial.trial_from t (p :: ps) = Serial.trial_from (Serial.trial_step t p) ps.
Proof. done. Qed.

Lemma wifi_trial_from_cons t p ps :
  Wifi.trial_from t (p :: ps) = Wifi.trial_from (Wifi.trial_step t p) ps.
Proof. done. Qed.

Lemma serial_trial_errors ps : ∀ t,
  0 ≤ Serial.scanErrCount t ≤ UINT32_MAX →
  Serial.scanErrCount (Serial.trial_from t ps) =
  u32 (Serial.scanErrCount t + Z.of_nat (error_count ps)).
Proof.
  induction ps as [|p ps IH]; intros t Ht.
  - unfold u32, UINT32_MAX, error_count in *. simpl. lia.
  - rewrite serial_trial_from_cons.
    change (p :: ps) with ([p] ++ ps). rewrite error_count_app.
    destruct p; cbn [Serial.trial_step].
    + rewrite IH by done. f_equal.
    + rewrite IH by done. f_equal.
    + rewrite IH by apply u32_range. cbn [Serial.scanErrCount].
      change (error_count [PollError]) with 1%nat.
      unfold u32, UINT32_MAX in *. lia.
Qed.

(** The private table of a trial does not depend on the error counter. *)
Lemma serial_table_errors ps : ∀ t e,
  Serial.table
    (Serial.trial_from
       {| Serial.table := Serial.table t; Serial.scanErrCount := e |} ps) =
  Serial.table (Serial.trial_from t ps).
Proof.
  induction ps as [|p ps IH]; intros t e; [done|].
  rewrite !serial_trial_from_cons. destruct p; cbn [Serial.trial_step].
  - apply IH.
  - apply (IH (Serial.trial_step t (PollFrame rxId len payload))).
  - apply (IH (Serial.trial_step t PollError)).
Qed.

(** C8, as the code has it. In the serial program's trial every failed
    read adds one to the trial's own [scanErrCount] (so that after the
    window it counts the failed reads, modulo [2^32]), leaves the private
    table as it was, and the polls that follow are processed as before.
    In the WiFi program's trial there is no error counter: a failed read
    changes nothing, and the polls that follow are processed as before. *)
Theorem trial_errors_do_not_stop (ps1 ps2 : list Poll) :
  let s1 := Serial.trial_run ps1 in
  let w1 := Wifi.trial_run ps1 in
  Serial.trial_run (ps1 ++ PollError :: ps2) =
    Serial.trial_from
      {| Serial.table := Serial.table s1;
         Serial.scanErrCount := u32 (Serial.scanErrCount s1 + 1) |} ps2 ∧
  Serial.scanErrCount (Serial.trial_run (ps1 ++ PollError :: ps2)) =
    u32 (Z.of_nat (error_count ps1) + 1 + Z.of_nat (error_count ps2)) ∧
  Serial.table (Serial.trial_run (ps1 ++ PollError :: ps2)) =
    Serial.table (Serial.trial_run (ps1 ++ ps2)) ∧
  Wifi.trial_run (ps1 ++ PollError :: ps2) = Wifi.trial_from w1 ps2 ∧
  Wifi.trial_run (ps1 ++ PollError :: ps2) = Wifi.trial_run (ps1 ++ ps2).
Proof.
  intros s1 w1.
  assert (Serial.trial_run (ps1 ++ PollError :: ps2) =
          Serial.trial_from
            {| Serial.table := Serial.table s1;
               Serial.scanErrCount := u32 (Serial.scanErrCount s1 + 1) |} ps2)
    as Hs by (unfold Serial.trial_run; by rewrite serial_trial_from_app).
  assert (Wifi.trial_run (ps1 ++ PollError :: ps2) = Wifi.trial_from w1 ps2)
    as Hw by (unfold Wifi.trial_run; by rewrite wifi_trial_from_app).
  split; [done|]. split; [|split; [|split; [done|]]].
  - unfold Serial.trial_run.
    rewrite serial_trial_errors by (simpl; unfold UINT32_MAX; lia).
    rewrite error_count_app. change (PollError :: ps2) with ([PollError] ++ ps2).
    rewrite error_count_app. change (error_count [PollError]) with 1%nat.
    f_equal. simpl. lia.
  - rewrite Hs, serial_table_errors. unfold s1, Serial.trial_run.
    by rewrite serial_trial_from_app.
  - rewrite Hw. unfold w1, Wifi.trial_run. by rewrite wifi_trial_from_app.
Qed.

(** C8 as stated fails in the WiFi program: a failed read leaves the
    whole trial state as it was, so nothing in it counts the error. *)
Lemma wifi_trial_counts_no_error :
  let payload := replicate 8 NUL in
  Wifi.trial_step trial_init PollError = trial_init ∧
  Wifi.trial_run [PollFrame 291 8 payload; PollError; PollError] =
    Wifi.trial_run [PollFrame 291 8 payload] ∧
  Serial.scanErrCount
    (Serial.trial_run [PollFrame 291 8 payload; PollError; PollError]) = 2.
Proof. vm_compute. repeat split. Qed.

(** ** Reconfiguration and reset *)

(** In the WiFi program a rate change and a scan touch [currentBaud]
    and nothing else. *)
Lemma wifi_handleBaud_only_baud arg st :
  Wifi.handleBaud arg st = Wifi.set_baud (Wifi.currentBaud (Wifi.handleBaud arg st)) st.
Proof.
  unfold Wifi.handleBaud. destruct arg as [v|]; [|by destruct st].
  repeat (destruct (_ =? _); [done|]). by destruct st.
Qed.

Lemma wifi_handleScan_only_baud bus st :
  snd (Wifi.handleScan bus st) =
  Wifi.set_baud (Wifi.currentBaud (snd (Wifi.handleScan bus st))) st.
Proof.
  unfold Wifi.handleScan. destruct (0 <=? _); simpl; [done|by destruct st].
Qed.

(** In the serial program every rate change and every scan that selects
    a rate ends in [clearCounts()]. *)
Lemma serial_reconfigure_resets now bus (b : can_baud_t) st :
  let st1 := Serial.command now bus (Serial.CmdBaud b) st in
  let r := Serial.autoScan now bus st in
  (Serial.currentBaud st1 = b ∧ Serial.uniqueIdCount st1 = 0 ∧
   Serial.messageCount st1 = 0 ∧ Serial.errorCount st1 = 0) ∧
  (0 ≤ bestRate (fst r) →
   Serial.uniqueIdCount (snd r) = 0 ∧ Serial.messageCount (snd r) = 0 ∧
   Serial.errorCount (snd r) = 0 ∧ Serial.startTime (snd r) = now).
Proof.
  simpl. split; [done|]. unfold Serial.autoScan.
  destruct (Z.leb_spec 0 (bestRate
              (scan_all (λ ps, Serial.table (Serial.trial_run ps)) bus)));
    simpl; [done|lia].
Qed.

(** C5 fails in the WiFi program. After one captured frame, the request
    [/baud?v=3] switches to 500 kbps, and a scan in which only 500 kbps
    carries traffic selects it, and both leave the log entry, the table
    record and the message count in place: neither [handleBaud] nor
    [handleScan] resets the live state. *)
Theorem wifi_reconfigure_keeps_live_state :
  let payload := replicate 8 NUL in
  let st := Wifi.receive 5 (PollFrame 291 8 payload) Wifi.init in
  let bus := λ b,
    {| init_ok := true;
       polls := if decide (b = BAUD_500K)
                then replicate 12 (PollFrame 291 8 payload) else [] |} in
  let st1 := Wifi.handleBaud (Some 3) st in
  let st2 := snd (Wifi.handleScan bus st) in
  (Wifi.currentBaud st = BAUD_250K ∧ Wifi.logCount st = 1 ∧
   Wifi.uniqueIdCount st = 1 ∧ Wifi.messageCount st = 1) ∧
  (Wifi.currentBaud st1 = BAUD_500K ∧ Wifi.logCount st1 = 1 ∧
   Wifi.uniqueIdCount st1 = 1 ∧ Wifi.messageCount st1 = 1) ∧
  (bestRate (fst (Wifi.handleScan bus st)) = 2 ∧
   Wifi.currentBaud st2 = BAUD_500K ∧ Wifi.logCount st2 = 1 ∧
   Wifi.uniqueIdCount st2 = 1 ∧ Wifi.messageCount st2 = 1).
Proof. vm_compute. repeat split. Qed.

(** ** The examples of the specification *)

(** Only 250 kbps carries traffic, 120 frames over 6 identifiers: it is
    selected, with verdict [LikelyCorrect]; the others get [NoData]. *)
Example scan_example_250k :
  let payload := replicate 8 NUL in
  let frames := map (λ i, PollFrame (256 + i mod 6) 8 payload) (seqZ 0 120) in
  let bus := λ b,
    {| init_ok := true;
       polls := if decide (b = BAUD_250K) then frames else [PollIdle] |} in
  let acc := scan_all Wifi.trial_run bus in
  bestRate acc = 1 ∧
  map res_verdict (report acc) = [NoData; LikelyCorrect; NoData; NoData] ∧
  map res_msgs (report acc) = [0; 120; 0; 0] ∧
  map res_ids (report acc) = [0; 6; 0; 0].
Proof. vm_compute. repeat split. Qed.

(** 200 frames over 50 identifiers score 0.4 (penalised); 150 frames
    over 15 identifiers score 10, are [Uncertain], and win. *)
Example scan_example_verdict_independent :
  verdict 200 50 = Noise ∧ verdict 150 15 = Uncertain ∧
  f32_gt (score 150 15) (score 200 50) = true ∧
  score 150 15 = f32_of_Z 10 ∧
  score 200 50 = f32_mul (f32_of_Z 4) f32_0_1.
Proof. vm_compute. repeat split. Qed.

(** The literal [0.1f] is the binary32 value nearest to one tenth. *)
Example f32_0_1_is_tenth : f32_div (f32_of_Z 1) (f32_of_Z 10) = f32_0_1.
Proof. reflexivity. Qed.

(** Two resets in a row are one reset. *)
Lemma handleClear_idempotent now st :
  Wifi.handleClear now (Wifi.handleClear now st) = Wifi.handleClear now st.
Proof. done. Qed.

(** * Further properties *)

(** ** The identifier table holds the first distinct identifiers *)

Lemma first_seen_from_snoc calls : ∀ acc id,
  first_seen_from acc (calls ++ [id]) =
  if decide (id ∈ first_seen_from acc calls)
  then first_seen_from acc calls
  else first_seen_from acc calls ++ [id].
Proof.
  induction calls as [|c calls IH]; intros acc id; simpl; [done|]. apply IH.
Qed.

Lemma first_seen_snoc calls id :
  first_seen (calls ++ [id]) =
  if decide (id ∈ first_seen calls) then first_seen calls
  else first_seen calls ++ [id].
Proof. apply first_seen_from_snoc. Qed.

Lemma first_seen_from_elem calls : ∀ acc x,
  x ∈ first_seen_from acc calls ↔ x ∈ acc ∨ x ∈ calls.
Proof.
  induction calls as [|c calls IH]; intros acc x; simpl.
  - rewrite elem_of_nil. tauto.
  - rewrite IH, elem_of_cons. case_decide as Hc.
    + split; [tauto|]. intros [?|[->|?]]; tauto.
    + rewrite elem_of_app, list_elem_of_singleton. tauto.
Qed.

Lemma first_seen_elem calls x : x ∈ first_seen calls ↔ x ∈ calls.
Proof.
  unfold first_seen. rewrite first_seen_from_elem, elem_of_nil. tauto.
Qed.

Lemma first_seen_from_NoDup calls : ∀ acc,
  NoDup acc → NoDup (first_seen_from acc calls).
Proof.
  induction calls as [|c calls IH]; intros acc Hacc; simpl; [done|].
  apply IH. case_decide as Hc; [done|].
  apply NoDup_app. split; [done|]. split; [|apply NoDup_singleton].
  intros x Hx ->%list_elem_of_singleton. done.
Qed.

Lemma first_seen_NoDup calls : NoDup (first_seen calls).
Proof. apply first_seen_from_NoDup, NoDup_nil_2. Qed.

(** One call keeps the held identifiers equal to the first [cap]
    distinct identifiers of the calls. *)
Lemma record_core_first_seen cap calls seen counts n id :
  0 ≤ n ≤ cap → length seen = Z.to_nat cap →
  take (Z.to_nat n) seen = take (Z.to_nat cap) (first_seen calls) →
  let '(seen', _, n') := record_core cap id (seen, counts, n) in
  0 ≤ n' ≤ cap ∧ length seen' = Z.to_nat cap ∧
  take (Z.to_nat n') seen' = take (Z.to_nat cap) (first_seen (calls ++ [id])).
Proof.
  intros Hn Hls Hord. unfold record_core.
  assert (Z.to_nat n = length (take (Z.to_nat cap) (first_seen calls))) as Hlen.
  { rewrite <- Hord, length_take. lia. }
  rewrite length_take in Hlen.
  rewrite first_seen_snoc.
  destruct (find_id seen id 0 (Z.to_nat n)) as [k|] eqn:Hf.
  - apply find_id_Some in Hf as (Hk & Hid & _); [|lia].
    split; [done|]. split; [done|].
    rewrite decide_True; [done|].
    assert (id ∈ take (Z.to_nat n) seen) as Hin.
    { apply elem_of_take. exists (Z.to_nat k). split; [|lia].
      rewrite list_lookup_lookup_total_lt by lia. by rewrite Hid. }
    rewrite Hord in Hin. apply elem_of_take in Hin as (j & Hj & _).
    by apply list_elem_of_lookup_2 in Hj.
  - pose proof (find_id_None_fresh _ _ _ (proj1 Hn) Hf) as Hfresh.
    destruct (Z.ltb_spec n cap) as [Hlt|Hge].
    + rewrite length_insert.
      replace (Z.to_nat (n + 1)) with (S (Z.to_nat n)) by lia.
      rewrite take_succ_insert by lia.
      split; [lia|]. split; [done|].
      rewrite Hord in Hfresh |- *.
      rewrite take_ge in Hfresh |- * by lia.
      rewrite decide_False by done.
      rewrite take_ge; [done|]. rewrite length_app. simpl. lia.
    + split; [done|]. split; [done|]. rewrite Hord.
      case_decide; [done|]. rewrite take_app_le by lia. done.
Qed.

Lemma wifi_record_all_first_seen cs : ∀ calls st,
  0 ≤ Wifi.uniqueIdCount st ≤ MAX_UNIQUE_IDS →
  length (Wifi.seenIds st) = 256%nat →
  take (Z.to_nat (Wifi.uniqueIdCount st)) (Wifi.seenIds st) =
    take 256 (first_seen calls) →
  let st' := Wifi.record_all cs st in
  0 ≤ Wifi.uniqueIdCount st' ≤ MAX_UNIQUE_IDS ∧
  length (Wifi.seenIds st') = 256%nat ∧
  take (Z.to_nat (Wifi.uniqueIdCount st')) (Wifi.seenIds st') =
    take 256 (first_seen (calls ++ map Wifi.call_id cs)).
Proof.
  induction cs as [|c cs IH]; intros calls st Hn Hls Hord; simpl.
  - by rewrite app_nil_r.
  - rewrite (cons_middle _ calls), app_assoc.
    pose proof (record_core_first_seen MAX_UNIQUE_IDS calls _ (Wifi.idCounts st)
                  _ (Wifi.call_id c) Hn Hls Hord) as Hstep.
    pose proof (wifi_findOrAddId_core (Wifi.call_id c) (Wifi.call_data c)
                  (Wifi.call_dlc c) st) as Hcore.
    unfold wifi_table in Hcore. rewrite <- Hcore in Hstep.
    destruct Hstep as (? & ? & ?).
    by apply IH.
Qed.

Lemma serial_record_all_first_seen ids : ∀ calls st,
  0 ≤ Serial.uniqueIdCount st ≤ MAX_UNIQUE_IDS →
  length (Serial.seenIds st) = 256%nat →
  take (Z.to_nat (Serial.uniqueIdCount st)) (Serial.seenIds st) =
    take 256 (first_seen calls) →
  let st' := Serial.record_all ids st in
  0 ≤ Serial.uniqueIdCount st' ≤ MAX_UNIQUE_IDS ∧
  length (Serial.seenIds st') = 256%nat ∧
  take (Z.to_nat (Serial.uniqueIdCount st')) (Serial.seenIds st') =
    take 256 (first_seen (calls ++ ids)).
Proof.
  induction ids as [|id ids IH]; intros calls st Hn Hls Hord; simpl.
  - by rewrite app_nil_r.
  - rewrite (cons_middle _ calls), app_assoc.
    pose proof (record_core_first_seen MAX_UNIQUE_IDS calls _ (Serial.idCounts st)
                  _ id Hn Hls Hord) as Hstep.
    pose proof (serial_findOrAddId_core id st) as Hcore.
    unfold serial_table in Hcore. rewrite <- Hcore in Hstep.
    destruct Hstep as (? & ? & ?).
    by apply IH.
Qed.

(** X1. After any run of [findOrAddId] calls on a table reset before,
    in either program, the held identifiers are the first 256 distinct
    identifiers of the calls, in the order in which each was first met;
    [handleIds] lists them in that order. *)
Theorem table_holds_first_seen (st : Wifi.State) (cs : list Wifi.Call)
    (sst : Serial.State) (ids : list Z) :
  length (Wifi.seenIds st) = 256%nat →
  Wifi.uniqueIdCount st = 0 →
  length (Serial.seenIds sst) = 256%nat →
  Serial.uniqueIdCount sst = 0 →
  let st' := Wifi.record_all cs st in
  let sst' := Serial.record_all ids sst in
  let wfirst := take 256 (first_seen (map Wifi.call_id cs)) in
  let sfirst := take 256 (first_seen ids) in
  take (Z.to_nat (Wifi.uniqueIdCount st')) (Wifi.seenIds st') = wfirst ∧
  Wifi.uniqueIdCount st' = Z.of_nat (length wfirst) ∧
  map (λ r, r.1.1) (Wifi.handleIds st') = wfirst ∧
  take (Z.to_nat (Serial.uniqueIdCount sst')) (Serial.seenIds sst') = sfirst ∧
  Serial.uniqueIdCount sst' = Z.of_nat (length sfirst).
Proof.
  intros Hws Hwn Hss Hsn st' sst' wfirst sfirst.
  destruct (wifi_record_all_first_seen cs [] st) as (Hwr & Hwl & Hw);
    [rewrite Hwn; unfold MAX_UNIQUE_IDS; lia|done|by rewrite Hwn|].
  destruct (serial_record_all_first_seen ids [] sst) as (Hsr & Hsl & Hs);
    [rewrite Hsn; unfold MAX_UNIQUE_IDS; lia|done|by rewrite Hsn|].
  simpl in Hw, Hs. fold st' in Hwr, Hwl, Hw. fold sst' in Hsr, Hsl, Hs.
  fold wfirst in Hw. fold sfirst in Hs. unfold MAX_UNIQUE_IDS in *.
  assert (Wifi.uniqueIdCount st' = Z.of_nat (length wfirst)) as Hwlen
    by (rewrite <- Hw, length_take; lia).
  assert (Serial.uniqueIdCount sst' = Z.of_nat (length sfirst)) as Hslen
    by (rewrite <- Hs, length_take; lia).
  split; [done|]. split; [done|]. split; [|done].
  rewrite <- Hw. unfold Wifi.handleIds. rewrite map_map. simpl.
  apply list_eq. intros i. rewrite list_lookup_fmap.
  destruct (decide (Z.of_nat i < Wifi.uniqueIdCount st')) as [Hi|Hi].
  - rewrite lookup_seqZ_lt by done. simpl.
    rewrite lookup_take_lt by lia.
    replace (Z.to_nat (0 + Z.of_nat i)) with i by lia.
    symmetry. apply list_lookup_lookup_total_lt. lia.
  - rewrite lookup_seqZ_ge by lia. simpl.
    symmetry. apply lookup_take_ge. lia.
Qed.

Lemma table_holds_first_seen_witness :
  let cs :=
    map (λ i, {| Wifi.call_id := i; Wifi.call_data := replicate 8 NUL;
                 Wifi.call_dlc := 8 |}) [291; 1110; 291; 7; 1110] in
  map (λ r, r.1.1) (Wifi.handleIds (Wifi.record_all cs Wifi.init)) =
    take 256 (first_seen (map Wifi.call_id cs)).
Proof.
  intros cs.
  apply (table_holds_first_seen Wifi.init cs Serial.init [291; 7; 291]);
    reflexivity.
Defined.

(** ** The private table of a scan trial *)

Lemma trial_frame_core rxId t :
  trial_table (trial_frame rxId t) =
  record_core SCAN_IDS (canId_of rxId) (trial_table t).
Proof.
  unfold trial_frame, record_core, trial_table, canId_of.
  destruct (find_id _ _ _ _); [done|]. by destruct (_ <? _).
Qed.

Lemma trial_frame_msgs rxId t :
  scanMsgCount (trial_frame rxId t) = u32 (scanMsgCount t + 1).
Proof.
  unfold trial_frame. destruct (find_id _ _ _ _); [done|]. by destruct (_ <? _).
Qed.

(** The trial loop of the serial program leaves the table the trial loop
    of the WiFi program leaves: the error counter has no part in it. *)
Lemma serial_trial_table ps : ∀ s,
  Serial.table (Serial.trial_from s ps) = Wifi.trial_from (Serial.table s) ps.
Proof.
  induction ps as [|p ps IH]; intros s; [done|].
  rewrite serial_trial_from_cons, wifi_trial_from_cons, IH. by destruct p.
Qed.

Lemma serial_trial_run_table ps :
  Serial.table (Serial.trial_run ps) = Wifi.trial_run ps.
Proof. apply serial_trial_table. Qed.

Lemma frame_ids_app ps1 ps2 : frame_ids (ps1 ++ ps2) = frame_ids ps1 ++ frame_ids ps2.
Proof.
  induction ps1 as [|p ps1 IH]; [done|]. destruct p; simpl; by rewrite ?IH.
Qed.

(** What a window's polls leave in the private table, whatever it held
    before. *)
Lemma wifi_trial_from_inv ps : ∀ calls t,
  table_inv SCAN_IDS calls (trial_table t) →
  take (Z.to_nat (scanUniqueIds t)) (scanIds t) = take 64 (first_seen calls) →
  0 ≤ scanMsgCount t ≤ UINT32_MAX →
  let t' := Wifi.trial_from t ps in
  table_inv SCAN_IDS (calls ++ frame_ids ps) (trial_table t') ∧
  take (Z.to_nat (scanUniqueIds t')) (scanIds t') =
    take 64 (first_seen (calls ++ frame_ids ps)) ∧
  scanMsgCount t' = u32 (scanMsgCount t + Z.of_nat (frame_count ps)).
Proof.
  induction ps as [|p ps IH]; intros calls t Hinv Hord Hm.
  - cbn [Wifi.trial_from fold_left frame_ids]. rewrite app_nil_r.
    split; [done|]. split; [done|].
    change (frame_count []) with 0%nat. unfold u32, UINT32_MAX in *. lia.
  - rewrite wifi_trial_from_cons.
    destruct p as [|rxId len payload|]; try by apply IH.
    cbn [Wifi.trial_step frame_ids]. unfold frame_count. cbn [frame_ids length].
    rewrite (cons_middle _ calls), app_assoc.
    pose proof (table_inv_step _ _ _ (canId_of rxId) Hinv) as Hinv'.
    rewrite <- trial_frame_core in Hinv'.
    destruct Hinv as (Hn & Hls & _).
    pose proof (record_core_first_seen SCAN_IDS calls _ (scanIdCounts t) _
                  (canId_of rxId) Hn Hls Hord) as Hord'.
    pose proof (trial_frame_core rxId t) as Hcore.
    unfold trial_table in Hcore. rewrite <- Hcore in Hord'.
    destruct Hord' as (_ & _ & Hord').
    destruct (IH (calls ++ [canId_of rxId]) (trial_frame rxId t) Hinv' Hord')
      as (H1 & H2 & H3).
    { rewrite trial_frame_msgs. apply u32_range. }
    split; [done|]. split; [done|].
    rewrite H3, trial_frame_msgs. unfold frame_count, u32, UINT32_MAX. lia.
Qed.

(** X2. The private table a scan trial leaves, in either program, after
    any polls: at most 64 identifiers, namely the first 64 distinct
    identifiers (masked to 29 bits) of the frames read, in first-met
    order, each with the number of frames that carried it, and
    [scanMsgCount] the number of frames read, both modulo [2^32]. Frames
    whose identifier finds the table full are counted in [scanMsgCount]
    only. *)
Theorem trial_table_contents (ps : list Poll) :
  let t := Wifi.trial_run ps in
  let ids := frame_ids ps in
  Serial.table (Serial.trial_run ps) = t ∧
  0 ≤ scanUniqueIds t ≤ 64 ∧
  take (Z.to_nat (scanUniqueIds t)) (scanIds t) = take 64 (first_seen ids) ∧
  (∀ i : nat, Z.of_nat i < scanUniqueIds t →
     scanIdCounts t !!! i = u32 (Z.of_nat (occurrences (scanIds t !!! i) ids))) ∧
  scanMsgCount t = u32 (Z.of_nat (frame_count ps)).
Proof.
  intros t ids.
  destruct (wifi_trial_from_inv ps [] trial_init) as (Hinv & Hord & Hm).
  { by apply table_inv_reset. }
  { done. }
  { unfold UINT32_MAX. simpl. lia. }
  change ([] ++ frame_ids ps) with ids in Hinv, Hord.
  change (Wifi.trial_from trial_init ps) with t in Hinv, Hord, Hm.
  change (scanMsgCount trial_init) with 0 in Hm. rewrite Z.add_0_l in Hm.
  split; [apply serial_trial_run_table|].
  destruct Hinv as (Hn & Hls & Hlc & _ & Hcnt & _). unfold SCAN_IDS in *.
  split; [done|]. split; [done|]. split; [|done].
  intros i Hi. apply list_lookup_total_correct.
  apply Hcnt; [lia|]. apply list_lookup_lookup_total_lt. lia.
Qed.

(** ** The scan report *)

Lemma scan_loop_ext run1 run2 cands : ∀ r acc,
  (∀ ps, run1 ps = run2 ps) →
  scan_loop run1 cands r acc = scan_loop run2 cands r acc.
Proof.
  induction cands as [|[b w] cands IH]; intros r acc Hrun; [done|]. simpl.
  rewrite IH by done. unfold scan_body. by rewrite Hrun.
Qed.

(** The line of the report for the candidate [b]. *)
Lemma scan_loop_report run cands : ∀ r acc,
  report (scan_loop run cands r acc) =
  report acc ++
  map (λ bw, if init_ok bw.2 then trial_result bw.1 (run (polls bw.2))
             else init_fail_result bw.1) cands.
Proof.
  induction cands as [|[b w] cands IH]; intros r acc; simpl.
  - by rewrite app_nil_r.
  - rewrite IH. unfold scan_body.
    destruct (init_ok w); simpl; [destruct (f32_gt _ _); simpl|];
      by rewrite <- app_assoc.
Qed.

(** X3. The two programs scan alike: for the same behaviour of the bus,
    [autoScan] and [handleScan] produce, for every rate, the same message
    count, identifier count, repeat rate, verdict and identifier list, and
    the same [bestRate]: the receive errors that [autoScan] counts for its
    Err% column have no part in any of these. The report has one line per
    rate of [rates], in that order: the line of a rate whose [initCAN]
    failed has zero counts and the verdict [InitFailed], the line of any
    other rate carries the counts and verdict of its trial. *)
Theorem scan_report_lines (bus : can_baud_t → RateTrial) (now : Z)
    (wst : Wifi.State) (sst : Serial.State) :
  let line := λ b,
    if init_ok (bus b) then trial_result b (Wifi.trial_run (polls (bus b)))
    else init_fail_result b in
  fst (Serial.autoScan now bus sst) = fst (Wifi.handleScan bus wst) ∧
  report (fst (Wifi.handleScan bus wst)) = map line rates ∧
  map res_baud (report (fst (Wifi.handleScan bus wst))) = rates.
Proof.
  intros line.
  assert (scan_all (λ ps, Serial.table (Serial.trial_run ps)) bus =
          scan_all Wifi.trial_run bus) as Hsame.
  { unfold scan_all. apply scan_loop_ext. apply serial_trial_run_table. }
  assert (fst (Wifi.handleScan bus wst) = scan_all Wifi.trial_run bus) as Hw.
  { unfold Wifi.handleScan. by destruct (0 <=? _). }
  assert (report (scan_all Wifi.trial_run bus) = map line rates) as Hrep.
  { unfold scan_all. rewrite scan_loop_report. simpl. done. }
  split; [|split].
  - rewrite Hw, <- Hsame. unfold Serial.autoScan. by destruct (0 <=? _).
  - by rewrite Hw.
  - rewrite Hw, Hrep. unfold line. simpl.
    by repeat (destruct (init_ok _)).
Qed.

(** X4. A scan never selects a silent rate: when [bestRate] is not -1
    it is the index of a rate whose [initCAN] succeeded and whose trial
    read at least one frame, and [currentBaud] becomes that rate. *)
Theorem scan_selects_rate_with_traffic (bus : can_baud_t → RateTrial)
    (wst : Wifi.State) :
  let r := Wifi.handleScan bus wst in
  0 ≤ bestRate (fst r) →
  ∃ b, rates !! Z.to_nat (bestRate (fst r)) = Some b ∧
       init_ok (bus b) = true ∧
       scanMsgCount (Wifi.trial_run (polls (bus b))) ≠ 0 ∧
       frame_count (polls (bus b)) ≠ 0%nat ∧
       Wifi.currentBaud (snd r) = b.
Proof.
  intros r. unfold r, Wifi.handleScan.
  pose proof (scan_all_best Wifi.trial_run bus wifi_trial_run_range) as Hbo.
  destruct (Z.leb_spec 0 (bestRate (scan_all Wifi.trial_run bus))) as [Hle|Hlt];
    simpl; intros Hbest; [|lia].
  destruct Hbo as [(Hneg & _)|(_ & sb & Hsb & Hpos & _)]; [lia|].
  rewrite list_lookup_fmap in Hsb.
  destruct (rates !! Z.to_nat (bestRate (scan_all Wifi.trial_run bus)))
    as [b|] eqn:Hb; [|done].
  simpl in Hsb. injection Hsb as Hsb. exists b. split; [done|].
  unfold cand_score in Hsb. destruct (init_ok (bus b)); [|done].
  injection Hsb as <-. split; [done|].
  assert (scanMsgCount (Wifi.trial_run (polls (bus b))) ≠ 0) as Hm.
  { intros Hz. rewrite Hz in Hpos. unfold score, repeatRate in Hpos.
    rewrite andb_false_r in Hpos. by destruct (30 <? _). }
  split; [done|]. split.
  - intros Hz. apply Hm.
    destruct (wifi_trial_from_inv (polls (bus b)) [] trial_init)
      as (_ & _ & Hcount);
      [by apply table_inv_reset|done|unfold UINT32_MAX; simpl; lia|].
    unfold Wifi.trial_run. by rewrite Hcount, Hz.
  - by apply list_lookup_total_correct.
Qed.

Lemma scan_selects_rate_with_traffic_witness :
  let payload := replicate 8 NUL in
  let bus := λ b,
    {| init_ok := true;
       polls := if decide (b = BAUD_500K)
                then replicate 12 (PollFrame 291 8 payload) else [PollError] |} in
  ∃ b, rates !! Z.to_nat (bestRate (fst (Wifi.handleScan bus Wifi.init))) = Some b ∧
       init_ok (bus b) = true ∧
       scanMsgCount (Wifi.trial_run (polls (bus b))) ≠ 0 ∧
       frame_count (polls (bus b)) ≠ 0%nat ∧
       Wifi.currentBaud (snd (Wifi.handleScan bus Wifi.init)) = b.
Proof.
  intros payload bus.
  apply (scan_selects_rate_with_traffic bus Wifi.init). vm_compute. discriminate.
Defined.

(** ** The identifier list of a report line *)

Lemma occurrences_cons id c calls :
  occurrences id (c :: calls) =
  ((if decide (c = id) then 1 else 0) + occurrences id calls)%nat.
Proof.
  unfold occurrences. case_decide.
  - by rewrite filter_cons_True.
  - by rewrite filter_cons_False.
Qed.

Lemma sum_list_with_add {A} (f g : A → nat) l :
  sum_list_with (λ x, f x + g x)%nat l =
  (sum_list_with f l + sum_list_with g l)%nat.
Proof. induction l as [|x l IH]; simpl; lia. Qed.

Lemma sum_list_with_eq {A} (f g : A → nat) l :
  (∀ x, f x = g x) → sum_list_with f l = sum_list_with g l.
Proof. intros Hfg. induction l as [|x l IH]; simpl; [done|]. by rewrite Hfg, IH. Qed.

Lemma sum_indicator (c : Z) l :
  NoDup l → c ∈ l →
  sum_list_with (λ x, if decide (c = x) then 1 else 0)%nat l = 1%nat.
Proof.
  induction 1 as [|x l Hx Hnd IH]; intros Hc; [by apply elem_of_nil in Hc|].
  simpl. apply elem_of_cons in Hc as [->|Hc].
  - rewrite decide_True by done.
    assert (sum_list_with (λ y, if decide (x = y) then 1 else 0)%nat l = 0%nat)
      as ->; [|done].
    clear IH Hnd. induction l as [|y l IH]; [done|]. simpl.
    apply not_elem_of_cons in Hx as [Hxy Hx].
    rewrite decide_False by done. by rewrite IH.
  - rewrite decide_False by (intros ->; done). by rewrite IH.
Qed.

(** Counting the calls identifier by identifier counts them all. *)
Lemma sum_occurrences l calls :
  NoDup l → (∀ x, x ∈ calls → x ∈ l) →
  sum_list_with (λ x, occurrences x calls) l = length calls.
Proof.
  intros Hnd. induction calls as [|c calls IH]; intros Hall.
  - clear Hnd Hall. induction l as [|x l IHl]; [done|].
    simpl. by rewrite IHl.
  - rewrite (sum_list_with_eq _ (λ x, (if decide (c = x) then 1 else 0)
                                      + occurrences x calls)%nat)
      by (intros; apply occurrences_cons).
    rewrite sum_list_with_add, sum_indicator, IH; try done.
    + intros x Hx. apply Hall. by apply elem_of_cons; right.
    + apply Hall. by apply elem_of_cons; left.
Qed.

Lemma foldr_add_of_nat {A} (f : A → nat) l :
  foldr Z.add 0 (map (λ x, Z.of_nat (f x)) l) = Z.of_nat (sum_list_with f l).
Proof. induction l as [|x l IH]; simpl; lia. Qed.

(** X5. When a report line carries the identifier list (1 to 20
    identifiers were seen) and the window read fewer than [2^32] frames,
    the list names every distinct identifier of the frames read, in
    first-met order, each with the exact number of frames that carried
    it, and the counts add up to the line's message count. *)
Theorem idList_accounts_for_frames (b : can_baud_t) (ps : list Poll)
    (l : list (Z * Z)) :
  Z.of_nat (frame_count ps) ≤ UINT32_MAX →
  res_idList (trial_result b (Wifi.trial_run ps)) = Some l →
  let ids := frame_ids ps in
  map fst l = first_seen ids ∧
  map snd l = map (λ id, Z.of_nat (occurrences id ids)) (first_seen ids) ∧
  foldr Z.add 0 (map snd l) = res_msgs (trial_result b (Wifi.trial_run ps)) ∧
  res_msgs (trial_result b (Wifi.trial_run ps)) = Z.of_nat (frame_count ps).
Proof.
  intros Hfew Hl ids.
  destruct (wifi_trial_from_inv ps [] trial_init) as (Hinv & Hord & Hm).
  { by apply table_inv_reset. }
  { done. }
  { unfold UINT32_MAX. simpl. lia. }
  change ([] ++ frame_ids ps) with ids in Hinv, Hord.
  change (Wifi.trial_from trial_init ps) with (Wifi.trial_run ps) in Hinv, Hord, Hm.
  change (scanMsgCount trial_init) with 0 in Hm. rewrite Z.add_0_l in Hm.
  set (t := Wifi.trial_run ps) in *.
  destruct Hinv as (Hn & Hls & Hlc & Hnd & Hcnt & Hfull). unfold SCAN_IDS in *.
  unfold trial_result in Hl |- *. cbn [res_idList res_msgs] in Hl |- *.
  destruct (Z.ltb_spec 0 (scanUniqueIds t)) as [Hpos|]; [|done].
  destruct (Z.leb_spec (scanUniqueIds t) 20) as [H20|]; [|done].
  cbn [andb] in Hl. apply (inj Some) in Hl. subst l.
  set (n := Z.to_nat (scanUniqueIds t)) in *.
  assert (take n (scanIds t) = first_seen ids) as Hids.
  { rewrite Hord. apply take_ge.
    assert (n = length (take 64 (first_seen ids))) as Hlen
      by (rewrite <- Hord, length_take; lia).
    rewrite length_take in Hlen. lia. }
  assert (take n (scanIdCounts t) =
          map (λ id, Z.of_nat (occurrences id ids)) (take n (scanIds t)))
    as Hcounts.
  { apply list_eq. intros i. rewrite list_lookup_fmap.
    destruct (decide (i < n)%nat) as [Hi|Hi].
    - rewrite !lookup_take_lt by done.
      destruct (scanIds t !! i) as [id|] eqn:Hid;
        [|apply lookup_ge_None in Hid; lia].
      destruct (Hcnt i id Hi Hid) as [_ ->]. simpl. f_equal.
      pose proof (occurrences_le id ids). unfold frame_count, ids in *.
      unfold u32, UINT32_MAX in *. lia.
    - by rewrite !lookup_take_ge by lia. }
  assert (Z.of_nat (frame_count ps) = scanMsgCount t) as Hmsgs.
  { rewrite Hm. unfold u32, UINT32_MAX in *. lia. }
  split; [|split; [|split]].
  - rewrite fst_zip; [done|]. rewrite !length_take. lia.
  - rewrite snd_zip by (rewrite !length_take; lia).
    by rewrite Hcounts, Hids.
  - rewrite snd_zip by (rewrite !length_take; lia).
    rewrite Hcounts, foldr_add_of_nat, sum_occurrences; [done|done|].
    intros x Hx. apply Hfull; [lia|done].
  - done.
Qed.

Lemma idList_accounts_for_frames_witness :
  let payload := replicate 8 NUL in
  let ps := map (λ i, PollFrame (256 + i mod 3) 8 payload) (seqZ 0 10) in
  ∃ l, res_idList (trial_result BAUD_250K (Wifi.trial_run ps)) = Some l ∧
       map fst l = first_seen (frame_ids ps) ∧
       foldr Z.add 0 (map snd l) = 10.
Proof.
  intros payload ps.
  eexists. split; [reflexivity|].
  assert (Z.of_nat (frame_count ps) ≤ UINT32_MAX) as Hfew.
  { change (Z.of_nat (frame_count ps)) with 10. unfold UINT32_MAX. lia. }
  destruct (idList_accounts_for_frames BAUD_250K ps _ Hfew eq_refl)
    as (H1 & _ & H3 & _).
  split; [exact H1|]. rewrite H3. reflexivity.
Defined.

(** ** The WiFi program's [loop()]: what every iteration keeps *)

Lemma wifi_run_invariant (P : Wifi.State → Prop) ts : ∀ st,
  (∀ t s, t ∈ ts → P s → P (Wifi.loop t s)) → P st → P (Wifi.run ts st).
Proof.
  induction ts as [|t ts IH]; intros st Hstep Hst; [done|]. simpl.
  apply IH.
  - intros t' s Ht'. apply Hstep. by apply elem_of_cons; right.
  - apply Hstep; [by apply elem_of_cons; left|done].
Qed.

Lemma same_log_trans_r st1 st2 st3 :
  same_log st1 st2 → same_log st2 st3 → same_log st1 st3.
Proof.
  unfold same_log. intros (H1 & H2 & H3 & H4) (-> & -> & -> & ->). done.
Qed.

Lemma findOrAddId_same_log id payload len st :
  same_log st (snd (Wifi.findOrAddId id payload len st)).
Proof.
  unfold Wifi.findOrAddId, same_log.
  destruct (find_id _ _ _ _); [done|]. by destruct (_ <? _).
Qed.

Lemma handleBaud_same_log arg st : same_log st (Wifi.handleBaud arg st).
Proof. rewrite wifi_handleBaud_only_baud. by unfold same_log. Qed.

Lemma handleScan_same_log bus st : same_log st (snd (Wifi.handleScan bus st)).
Proof. rewrite wifi_handleScan_only_baud. by unfold same_log. Qed.

Lemma LogRep_same_log h st st' : same_log st st' → LogRep h st → LogRep h st'.
Proof. unfold LogRep. intros (-> & -> & -> & _). done. Qed.

Lemma LogSeq_same_log h st st' : same_log st st' → LogSeq h st → LogSeq h st'.
Proof. unfold LogSeq. intros (_ & _ & _ & ->). done. Qed.

Lemma log_inv_same_log st st' : same_log st st' → log_inv st → log_inv st'.
Proof.
  intros Hsame (Hr & h & Hrep & Hseq).
  split; [by destruct Hsame as (_ & _ & _ & ->)|].
  exists h. split; [by eapply LogRep_same_log|by eapply LogSeq_same_log].
Qed.

(** An entry written with the current counter extends the history. *)
Lemma log_inv_advance e st :
  Wifi.seq e = Wifi.nextSeq st → log_inv st → log_inv (Wifi.advance e st).
Proof.
  intros He (Hr & h & Hrep & Hseq). split; [apply u32_range|].
  exists (h ++ [e]). split; [by apply LogRep_advance|].
  intros j e' Hj. rewrite length_app. simpl.
  change (Wifi.nextSeq (Wifi.advance e st)) with (u32 (Wifi.nextSeq st + 1)).
  apply lookup_app_Some in Hj as [Hj|[Hge Hj]].
  - pose proof (lookup_lt_Some _ _ _ Hj) as Hlt.
    rewrite (Hseq _ _ Hj). unfold u32, UINT32_MAX in *. lia.
  - apply list_lookup_singleton_Some in Hj as [Hj0 <-].
    rewrite He. unfold u32, UINT32_MAX in *. lia.
Qed.

Lemma log_inv_clear now st :
  length (Wifi.logBuffer st) = 500%nat → 0 ≤ Wifi.nextSeq st ≤ UINT32_MAX →
  log_inv (Wifi.handleClear now st).
Proof.
  intros Hlen Hr. split; [done|]. exists []. split; [by apply LogRep_clear|].
  intros j e Hj. by rewrite lookup_nil in Hj.
Qed.

Lemma log_inv_length st : log_inv st → length (Wifi.logBuffer st) = 500%nat.
Proof. intros (_ & h & (Hlen & _) & _). done. Qed.

Lemma log_inv_handleClient now r st :
  log_inv st → log_inv (snd (Wifi.handleClient now r st)).
Proof.
  intros Hinv. destruct r as [| | | | |arg|arg|bus| |]; simpl; try done.
  - by eapply log_inv_same_log; [apply handleBaud_same_log|].
  - unfold Wifi.handleMark. destruct arg as [msg|]; [|done].
    destruct (0 <? _); [|done]. by apply log_inv_advance.
  - by eapply log_inv_same_log; [apply handleScan_same_log|].
  - apply log_inv_clear; [by apply log_inv_length|by destruct Hinv].
Qed.

Lemma receive_frame_log now rxId len payload st :
  ∃ st1, same_log st st1 ∧ Wifi.startTime st1 = Wifi.startTime st ∧
    Wifi.receive now (PollFrame rxId len payload) st =
    Wifi.addToLog now (canId_of rxId) (negb (Z.land rxId 0x80000000 =? 0))
      (negb (Z.land rxId 0x40000000 =? 0)) len payload st1.
Proof.
  eexists. split; [|split; [|reflexivity]].
  - eapply same_log_trans_r; [|apply findOrAddId_same_log]. by unfold same_log.
  - unfold Wifi.findOrAddId. cbn [Wifi.seenIds Wifi.uniqueIdCount].
    destruct (find_id _ _ _ _); [done|]. by destruct (_ <? _).
Qed.

Lemma log_inv_receive now p st : log_inv st → log_inv (Wifi.receive now p st).
Proof.
  intros Hinv. destruct p as [|rxId len payload|]; try done.
  destruct (receive_frame_log now rxId len payload st) as (st1 & Hsame & _ & ->).
  apply log_inv_advance; [done|]. by eapply log_inv_same_log.
Qed.

Lemma log_inv_loop t st : log_inv st → log_inv (Wifi.loop t st).
Proof. intros Hinv. by apply log_inv_receive, log_inv_handleClient. Qed.

Lemma log_inv_init : log_inv Wifi.init.
Proof.
  split; [unfold UINT32_MAX; simpl; lia|]. exists [].
  split; [apply LogRep_init|]. intros j e Hj. by rewrite lookup_nil in Hj.
Qed.

Lemma log_inv_run ts : log_inv (Wifi.run ts Wifi.init).
Proof.
  apply wifi_run_invariant; [|apply log_inv_init].
  intros t s _. apply log_inv_loop.
Qed.

(** A suffix of a history with consecutive numbers has them too, and
    ends on the number before the counter. *)
Lemma LogSeq_drop h st d :
  LogSeq h st →
  let es := drop d h in
  (∀ (k : nat) e e', es !! k = Some e → es !! S k = Some e' →
     Wifi.seq e' = u32 (Wifi.seq e + 1)) ∧
  (∀ e, last es = Some e → Wifi.seq e = u32 (Wifi.nextSeq st - 1)).
Proof.
  intros Hseq es. unfold es. split.
  - intros k e e' He He'. rewrite lookup_drop in He, He'.
    pose proof (lookup_lt_Some _ _ _ He') as Hlt.
    rewrite (Hseq _ _ He), (Hseq _ _ He'). unfold u32, UINT32_MAX. lia.
  - intros e He. rewrite last_lookup in He. rewrite lookup_drop in He.
    pose proof (lookup_lt_Some _ _ _ He) as Hlt. rewrite length_drop in Hlt, He.
    rewrite (Hseq _ _ He). f_equal. lia.
Qed.

(** X6. In every state the WiFi program reaches from start-up, whatever
    the requests served and the frames read, the entries of the [/csv]
    reply and of the [/log] reply carry consecutive sequence numbers
    (modulo [2^32]), and the newest entry of a reply carries the number
    before [nextSeq]: a reader that remembers the last number it saw can
    tell the new entries, and can tell that it missed some. *)
Theorem log_replies_consecutive (ts : list Wifi.Tick) :
  let st := Wifi.run ts Wifi.init in
  let consecutive := λ es : list Wifi.LogEntry,
    (∀ (k : nat) e e', es !! k = Some e → es !! S k = Some e' →
       Wifi.seq e' = u32 (Wifi.seq e + 1)) ∧
    (∀ e, last es = Some e → Wifi.seq e = u32 (Wifi.nextSeq st - 1)) in
  consecutive (fst (Wifi.handleCSV st)) ∧
  consecutive (fst (Wifi.handleLog st)) ∧
  Z.of_nat (length (fst (Wifi.handleCSV st))) = Wifi.logCount st ∧
  Z.of_nat (length (fst (Wifi.handleLog st))) = Z.min 100 (Wifi.logCount st).
Proof.
  intros st consecutive.
  destruct (log_inv_run ts) as (_ & h & Hrep & Hseq). fold st in Hrep, Hseq.
  pose proof (drainAll_rep _ _ Hrep) as Hd.
  pose proof (snapshot_rep _ _ 100 Hrep) as Hs.
  pose proof Hrep as (_ & _ & Hc & _). simpl.
  split; [rewrite Hd; by apply LogSeq_drop|].
  split; [rewrite Hs by lia; by apply LogSeq_drop|].
  split; [rewrite Hd, length_drop; lia|].
  rewrite snapshot_length. lia.
Qed.

Lemma findOrAddId_errorCount id payload len st :
  Wifi.errorCount (snd (Wifi.findOrAddId id payload len st)) = Wifi.errorCount st.
Proof.
  unfold Wifi.findOrAddId. destruct (find_id _ _ _ _); [done|].
  by destruct (_ <? _).
Qed.

Lemma receive_errorCount now p st :
  Wifi.errorCount (Wifi.receive now p st) = Wifi.errorCount st.
Proof.
  destruct p as [|rxId len payload|]; try done. simpl.
  by rewrite findOrAddId_errorCount.
Qed.

Lemma handleClient_errorCount now r st :
  Wifi.errorCount (snd (Wifi.handleClient now r st)) = Wifi.errorCount st ∨
  Wifi.errorCount (snd (Wifi.handleClient now r st)) = 0.
Proof.
  destruct r as [| | | | |arg|arg|bus| |]; simpl; auto.
  - left. by rewrite wifi_handleBaud_only_baud.
  - left. unfold Wifi.handleMark. destruct arg; [|done]. by destruct (0 <? _).
  - left. by rewrite wifi_handleScan_only_baud.
Qed.

(** X7. The WiFi program never counts a receive error: whatever the
    requests served and whatever the polls (failed reads included), an
    iteration of [loop()] leaves [errorCount] as it was or zeroes it, so
    that the error count of [/status] is 0 in every state reached from
    start-up. *)
Theorem wifi_never_counts_errors (ts : list Wifi.Tick) (st : Wifi.State) :
  (Wifi.errorCount (Wifi.run ts st) = Wifi.errorCount st ∨
   Wifi.errorCount (Wifi.run ts st) = 0) ∧
  Wifi.status_errors (Wifi.handleStatus (Wifi.run ts Wifi.init)) = 0.
Proof.
  assert (∀ s0, Wifi.errorCount (Wifi.run ts s0) = Wifi.errorCount s0 ∨
                Wifi.errorCount (Wifi.run ts s0) = 0) as Hall.
  { intros s0.
    apply (wifi_run_invariant
             (λ s, Wifi.errorCount s = Wifi.errorCount s0 ∨ Wifi.errorCount s = 0));
      [|by left].
    intros t s _ Hs. unfold Wifi.loop. rewrite receive_errorCount.
    destruct (handleClient_errorCount (Wifi.tick_request_now t)
                (Wifi.tick_request t) s) as [-> | ->]; [done|by right]. }
  split; [apply Hall|]. simpl. by destruct (Hall Wifi.init).
Qed.

(** ** The shape of the globals *)

Lemma memcpy_length dst src n :
  length src = 8%nat → length dst = 8%nat → length (memcpy dst src n) = 8%nat.
Proof.
  intros Hs Hd. unfold memcpy. rewrite length_app, length_take, length_drop. lia.
Qed.

Lemma frame_entry_wf now canId ext isRtr len payload st :
  length payload = 8%nat →
  entry_wf (Wifi.logBuffer st !!! Z.to_nat (Wifi.logHead st)) →
  entry_wf (Wifi.frame_entry now canId ext isRtr len payload st).
Proof.
  intros Hp [Hd Hm]. unfold Wifi.frame_entry.
  split; cbn [Wifi.data Wifi.markText].
  - by apply memcpy_length.
  - by rewrite length_insert.
Qed.

Lemma mark_entry_wf now text st :
  entry_wf (Wifi.logBuffer st !!! Z.to_nat (Wifi.logHead st)) →
  entry_wf (Wifi.mark_entry now text st).
Proof.
  intros [Hd Hm]. unfold Wifi.mark_entry.
  split; cbn [Wifi.data Wifi.markText].
  - unfold memset0. rewrite length_app, length_replicate, length_drop. lia.
  - rewrite length_insert. unfold strncpy.
    rewrite length_app, strncpy_bytes_length, length_drop. lia.
Qed.

Lemma wifi_wf_advance e st :
  entry_wf e → wifi_wf st → wifi_wf (Wifi.advance e st).
Proof.
  intros He ((Hlen & Hh & Hc & Hhc) & Hall & Hseq & Hrest).
  split; [|split; [|split; [apply u32_range|done]]].
  - unfold log_wf, Wifi.advance, Wifi.LOG_BUFFER_SIZE. simpl.
    rewrite length_insert.
    destruct (Z.ltb_spec (Wifi.logCount st) 500); repeat split; lia.
  - simpl. apply Forall_insert; done.
Qed.

Lemma wifi_wf_slot st :
  wifi_wf st → entry_wf (Wifi.logBuffer st !!! Z.to_nat (Wifi.logHead st)).
Proof.
  intros ((Hlen & Hh & _) & Hall & _).
  apply (Forall_lookup_1 _ _ (Z.to_nat (Wifi.logHead st)) _ Hall).
  apply list_lookup_lookup_total_lt. lia.
Qed.

Lemma wifi_wf_findOrAddId id payload len st :
  0 ≤ len ≤ 8 → length payload = 8%nat →
  wifi_wf st → wifi_wf (snd (Wifi.findOrAddId id payload len st)).
Proof.
  intros Hlen Hp ((Hbl & Hh & Hc & Hhc) & Hall & Hseq & Hmsg & Hn & Hls & Hlc
          & Hld & Hrows).
  assert (∀ i, (i < 256)%nat → length (Wifi.lastData st !!! i) = 8%nat) as Hrow.
  { intros i Hi. apply (Forall_lookup_1 _ _ i _ Hrows).
    apply list_lookup_lookup_total_lt. lia. }
  unfold Wifi.findOrAddId, MAX_UNIQUE_IDS in *.
  destruct (find_id _ _ _ _) as [k|] eqn:Hf; simpl.
  - apply find_id_Some in Hf as (Hk & _ & _); [|lia].
    unfold wifi_wf, log_wf, MAX_UNIQUE_IDS. simpl. rewrite !length_insert.
    repeat split; try done; try lia.
    apply Forall_insert; [done|]. apply memcpy_length; [done|]. apply Hrow. lia.
  - destruct (Z.ltb_spec (Wifi.uniqueIdCount st) 256); simpl;
      [|by unfold wifi_wf, log_wf, MAX_UNIQUE_IDS].
    unfold wifi_wf, log_wf, MAX_UNIQUE_IDS. simpl. rewrite !length_insert.
    repeat split; try done; try lia.
    apply Forall_insert; [done|]. apply memcpy_length; [done|]. apply Hrow. lia.
Qed.

Lemma wifi_wf_init : wifi_wf Wifi.init.
Proof.
  unfold wifi_wf, log_wf, MAX_UNIQUE_IDS, UINT32_MAX, Wifi.init.
  cbn [Wifi.logBuffer Wifi.logHead Wifi.logCount Wifi.nextSeq Wifi.messageCount
       Wifi.uniqueIdCount Wifi.seenIds Wifi.idCounts Wifi.lastData].
  split_and!; try lia; try (by rewrite length_replicate);
    by apply Forall_replicate.
Qed.

Lemma wifi_wf_handleClient now r st :
  wifi_wf st → wifi_wf (snd (Wifi.handleClient now r st)).
Proof.
  intros Hwf. destruct r as [| | | | |arg|arg|bus| |]; simpl; try done.
  - rewrite wifi_handleBaud_only_baud. by unfold wifi_wf, log_wf in *.
  - unfold Wifi.handleMark. destruct arg as [msg|]; [|done].
    destruct (0 <? _); [|done].
    apply wifi_wf_advance; [|done]. by apply mark_entry_wf, wifi_wf_slot.
  - rewrite wifi_handleScan_only_baud. by unfold wifi_wf, log_wf in *.
  - destruct Hwf as ((Hlen & _) & Hall & Hseq & _ & _ & Hls & Hlc & Hld & Hrows).
    unfold wifi_wf, log_wf, MAX_UNIQUE_IDS, UINT32_MAX in *. simpl.
    split_and!; try done; lia.
Qed.

Lemma wifi_wf_receive now p st :
  poll_wf p → wifi_wf st → wifi_wf (Wifi.receive now p st).
Proof.
  intros Hp Hwf. destruct p as [|rxId len payload|]; try done.
  destruct Hp as (_ & Hlen & Hpl). unfold Wifi.receive.
  set (st1 := Wifi.findOrAddId _ _ _ _).
  assert (wifi_wf (snd st1)) as Hwf1.
  { apply wifi_wf_findOrAddId; try done.
    destruct Hwf as (Hlog & Hall & Hseq & Hmsg & Hrest).
    split; [done|]. split; [done|]. split; [done|].
    split; [apply u32_range|done]. }
  apply wifi_wf_advance; [|done]. apply frame_entry_wf; [done|].
  by apply wifi_wf_slot.
Qed.

(** X8. The WiFi program keeps the shape of its globals: in every state
    reached from start-up by iterations of [loop()] in which the frames
    read have an 8-byte buffer and a length of at most 8, [logHead] is a
    slot of the 500-slot buffer, [logCount] is at most 500 (and equals
    [logHead] while the log is not full), every slot holds 8 data bytes
    and 40 text bytes, the table arrays keep their 256 entries with
    8-byte rows, and [uniqueIdCount] is at most 256. *)
Theorem wifi_loop_keeps_shape (ts : list Wifi.Tick) :
  Forall (λ t, poll_wf (Wifi.tick_poll t)) ts →
  wifi_wf (Wifi.run ts Wifi.init).
Proof.
  intros Hps. apply wifi_run_invariant; [|apply wifi_wf_init].
  intros t s Ht Hs. unfold Wifi.loop.
  apply wifi_wf_receive; [|by apply wifi_wf_handleClient].
  by apply (proj1 (Forall_forall _ _) Hps).
Qed.

Lemma wifi_loop_keeps_shape_witness :
  let payload := replicate 8 NUL in
  let ts :=
    [{| Wifi.tick_request := Wifi.GetMark (Some [Init.Byte.x4b]);
        Wifi.tick_request_now := 3; Wifi.tick_poll := PollFrame 291 8 payload;
        Wifi.tick_poll_now := 4 |};
     {| Wifi.tick_request := Wifi.GetClear; Wifi.tick_request_now := 5;
        Wifi.tick_poll := PollError; Wifi.tick_poll_now := 6 |}] in
  wifi_wf (Wifi.run ts Wifi.init).
Proof.
  intros payload ts. apply (wifi_loop_keeps_shape ts).
  repeat (apply Forall_cons; split; [simpl; unfold UINT32_MAX; try done; lia|]).
  apply Forall_nil_2.
Defined.

(** ** A frame is logged whatever the table does *)

Lemma drainAll_advance_last e st :
  log_wf st → last (Wifi.drainAll (Wifi.advance e st)) = Some e.
Proof.
  intros Hwf. destruct (log_wf_rep st Hwf) as [h Hrep].
  rewrite (drainAll_rep _ _ (LogRep_advance h e st Hrep)).
  rewrite last_lookup, length_drop, lookup_drop, length_app. simpl.
  rewrite lookup_app_r by lia.
  replace (length h + 1 - 500 + Init.Nat.pred (length h + 1 - (length h + 1 - 500))
           - length h)%nat with 0%nat by lia.
  done.
Qed.

(** X9. A frame read by [loop()] is always logged: the newest entry of
    the log is then a capture entry with the frame's 29-bit identifier,
    its length and the next sequence number, and [messageCount] goes up
    by one, whatever [findOrAddId] returns. When the table is full and
    the identifier is not held, the table is left as it was: only the
    identifier's statistics are lost. *)
Theorem frame_logged_whatever_the_table (now rxId len : Z)
    (payload : list byte) (st : Wifi.State) :
  log_wf st →
  length (Wifi.seenIds st) = 256%nat →
  let st' := Wifi.receive now (PollFrame rxId len payload) st in
  (∃ e, last (Wifi.drainAll st') = Some e ∧
        Wifi.isMark e = false ∧ Wifi.id e = canId_of rxId ∧
        Wifi.dlc e = len ∧ Wifi.seq e = Wifi.nextSeq st) ∧
  Wifi.nextSeq st' = u32 (Wifi.nextSeq st + 1) ∧
  Wifi.messageCount st' = u32 (Wifi.messageCount st + 1) ∧
  (Wifi.uniqueIdCount st = MAX_UNIQUE_IDS →
   canId_of rxId ∉ take 256 (Wifi.seenIds st) →
   wifi_table st' = wifi_table st ∧ Wifi.lastData st' = Wifi.lastData st).
Proof.
  intros Hwf Hls st'.
  destruct (receive_frame_log now rxId len payload st)
    as (st1 & (Hb & Hh & Hc & Hs) & _ & Hrec).
  fold st' in Hrec.
  assert (log_wf st1) as Hwf1 by (unfold log_wf; by rewrite Hb, Hh, Hc).
  split; [|split; [|split]].
  - eexists. split; [rewrite Hrec; by apply drainAll_advance_last|].
    simpl. by rewrite Hs.
  - rewrite Hrec. simpl. by rewrite Hs.
  - unfold st', Wifi.receive, Wifi.findOrAddId.
    cbn [Wifi.seenIds Wifi.uniqueIdCount].
    destruct (find_id _ _ _ _); [done|]. by destruct (_ <? _).
  - intros Hfull Hnew. unfold st', Wifi.receive, Wifi.findOrAddId.
    cbn [Wifi.seenIds Wifi.uniqueIdCount].
    fold (canId_of rxId).
    rewrite find_id_absent; [|unfold MAX_UNIQUE_IDS in *; lia..|by rewrite Hfull].
    destruct (Z.ltb_spec (Wifi.uniqueIdCount st) MAX_UNIQUE_IDS); [lia|done].
Qed.

Lemma frame_logged_whatever_the_table_witness :
  let payload := replicate 8 NUL in
  let st' := Wifi.receive 9 (PollFrame 2147484027 2 payload) Wifi.init in
  ∃ e, last (Wifi.drainAll st') = Some e ∧
       Wifi.isMark e = false ∧ Wifi.id e = canId_of 2147484027 ∧
       Wifi.dlc e = 2 ∧ Wifi.seq e = Wifi.nextSeq Wifi.init.
Proof.
  intros payload.
  apply (frame_logged_whatever_the_table 9 2147484027 2 payload Wifi.init).
  - unfold log_wf; simpl. repeat split; try lia; reflexivity.
  - reflexivity.
Defined.

(** ** Timestamps *)

Lemma append_startTime a st :
  Wifi.startTime (Wifi.append a st) = Wifi.startTime st.
Proof. by destruct a. Qed.

Lemma append_all_startTime apps : ∀ st,
  Wifi.startTime (snd (Wifi.append_all apps st)) = Wifi.startTime st.
Proof.
  induction apps as [|a apps IH]; intros st; [done|].
  rewrite append_all_cons. simpl. by rewrite IH, append_startTime.
Qed.

(** X10. Timestamps are the time elapsed since the last reset, also
    when the 32-bit clock [millis()] has rolled over in between: after a
    reset at clock [t0] and any appends, an entry written when [d]
    milliseconds have elapsed ([d < 2^32], so the clock reads
    [(t0 + d) mod 2^32]) carries the timestamp [d]. *)
Theorem timestamps_are_elapsed_time (t0 d : Z) (apps : list Wifi.Append)
    (st : Wifi.State) (canId : Z) (ext isRtr : bool) (len : Z)
    (payload text : list byte) :
  0 ≤ t0 ≤ UINT32_MAX → 0 ≤ d ≤ UINT32_MAX →
  let st1 := snd (Wifi.append_all apps (Wifi.handleClear t0 st)) in
  let now := u32 (t0 + d) in
  Wifi.timestamp (Wifi.written (Wifi.AppFrame now canId ext isRtr len payload) st1)
    = d ∧
  Wifi.timestamp (Wifi.written (Wifi.AppMark now text) st1) = d.
Proof.
  intros Ht0 Hd st1 now.
  assert (Wifi.startTime st1 = t0) as Hst by apply append_all_startTime.
  unfold Wifi.written, Wifi.frame_entry, Wifi.mark_entry.
  cbn [Wifi.timestamp]. rewrite Hst. unfold now, u32, UINT32_MAX in *. lia.
Qed.

Lemma timestamps_are_elapsed_time_witness :
  let st1 := snd (Wifi.append_all [] (Wifi.handleClear 4294967290 Wifi.init)) in
  let now := u32 (4294967290 + 10) in
  Wifi.timestamp
    (Wifi.written (Wifi.AppFrame now 291 false false 8 (replicate 8 NUL)) st1)
    = 10 ∧
  Wifi.timestamp (Wifi.written (Wifi.AppMark now [Init.Byte.x4b]) st1) = 10.
Proof.
  apply (timestamps_are_elapsed_time 4294967290 10 [] Wifi.init);
    unfold UINT32_MAX; lia.
Defined.

(** ** Identifiers have 29 bits *)

Lemma canId_of_range rxId : 0 ≤ canId_of rxId < 2 ^ 29.
Proof.
  unfold canId_of. change 0x1FFFFFFF with (Z.ones 29).
  rewrite Z.land_ones by lia. apply Z.mod_pos_bound. lia.
Qed.

Lemma ids_29bit_findOrAddId rxId payload len st :
  ids_29bit st →
  ids_29bit (snd (Wifi.findOrAddId (canId_of rxId) payload len st)).
Proof.
  intros [Htab Hlog]. unfold Wifi.findOrAddId.
  destruct (find_id _ _ _ _); [done|].
  destruct (Z.ltb_spec (Wifi.uniqueIdCount st) MAX_UNIQUE_IDS); [|done].
  split; [|done]. simpl. intros i id Hi Hid.
  apply list_lookup_insert_Some in Hid as [(_ & <- & _)|(Hne & Hid)].
  - apply canId_of_range.
  - apply (Htab i); [lia|done].
Qed.

Lemma ids_29bit_advance e st :
  0 ≤ Wifi.id e < 2 ^ 29 → ids_29bit st → ids_29bit (Wifi.advance e st).
Proof.
  intros He [Htab Hlog]. split; [done|]. simpl. by apply Forall_insert.
Qed.

Lemma ids_29bit_loop t st : ids_29bit st → ids_29bit (Wifi.loop t st).
Proof.
  intros Hinv. unfold Wifi.loop.
  assert (ids_29bit (snd (Wifi.handleClient (Wifi.tick_request_now t)
                            (Wifi.tick_request t) st))) as Hinv'.
  { destruct (Wifi.tick_request t) as [| | | | |arg|arg|bus| |]; simpl; try done.
    - rewrite wifi_handleBaud_only_baud. by destruct Hinv.
    - unfold Wifi.handleMark. destruct arg as [msg|]; [|done].
      destruct (0 <? _); [|done]. by apply ids_29bit_advance.
    - rewrite wifi_handleScan_only_baud. by destruct Hinv.
    - destruct Hinv as [_ Hlog]. split; [|done]. simpl. intros i id Hi. lia. }
  destruct (Wifi.tick_poll t) as [|rxId len payload|]; try done.
  unfold Wifi.receive. apply ids_29bit_advance; [apply canId_of_range|].
  apply (ids_29bit_findOrAddId rxId). by destruct Hinv'.
Qed.

(** X11. Every identifier the WiFi program tracks or logs is a 29-bit
    value: in every state reached from start-up, the identifiers listed
    by [/ids] and the identifiers of the entries listed by [/csv] lie
    between 0 and [2^29 - 1] (the flag bits of [rxId] never reach them). *)
Theorem wifi_identifiers_29_bits (ts : list Wifi.Tick) :
  let st := Wifi.run ts Wifi.init in
  Forall (λ r, 0 ≤ r.1.1 < 2 ^ 29) (Wifi.handleIds st) ∧
  Forall (λ e, 0 ≤ Wifi.id e < 2 ^ 29) (fst (Wifi.handleCSV st)).
Proof.
  intros st.
  assert (ids_29bit st) as [Htab Hlog].
  { apply wifi_run_invariant; [intros t s _; apply ids_29bit_loop|].
    split; [intros i id Hi; simpl in Hi; lia|]. by apply Forall_replicate. }
  split.
  - unfold Wifi.handleIds. apply Forall_fmap, Forall_seqZ. intros i Hi. simpl.
    destruct (Wifi.seenIds st !! Z.to_nat i) as [id|] eqn:Hid.
    + rewrite (list_lookup_total_correct _ _ _ Hid).
      apply (Htab (Z.to_nat i)); [lia|done].
    + rewrite list_lookup_total_alt, Hid. simpl. lia.
  - simpl. unfold Wifi.drainAll. apply Forall_fmap, Forall_seqZ. intros i Hi. simpl.
    match goal with
    | |- context [Wifi.logBuffer st !!! ?k] =>
        destruct (Wifi.logBuffer st !! k) as [e|] eqn:He
    end.
    + rewrite (list_lookup_total_correct _ _ _ He).
      by apply (Forall_lookup_1 _ _ _ _ Hlog He).
    + rewrite list_lookup_total_alt, He. simpl. lia.
Qed.

(** ** The serial program's [loop()] *)

Lemma serial_receive_all_cons p ps st :
  Serial.receive_all (p :: ps) st = Serial.receive_all ps (Serial.receive p st).
Proof. done. Qed.

Lemma serial_receive_table p st :
  serial_table (Serial.receive p st) =
  match p with
  | PollFrame rxId _ _ =>
      record_core MAX_UNIQUE_IDS (canId_of rxId) (serial_table st)
  | _ => serial_table st
  end.
Proof.
  destruct p as [|rxId len payload|]; try done.
  unfold Serial.receive. by rewrite serial_findOrAddId_core.
Qed.

Lemma serial_receive_counters p st :
  Serial.messageCount (Serial.receive p st) =
    (if is_error p then Serial.messageCount st
     else match p with
          | PollFrame _ _ _ => u32 (Serial.messageCount st + 1)
          | _ => Serial.messageCount st
          end) ∧
  Serial.errorCount (Serial.receive p st) =
    (if is_error p then u32 (Serial.errorCount st + 1) else Serial.errorCount st) ∧
  Serial.currentBaud (Serial.receive p st) = Serial.currentBaud st ∧
  Serial.startTime (Serial.receive p st) = Serial.startTime st.
Proof.
  destruct p as [|rxId len payload|]; try done.
  unfold Serial.receive, Serial.findOrAddId. simpl.
  destruct (find_id _ _ _ _); [done|]. by destruct (_ <? _).
Qed.

(** The table after a run of receive attempts is the table after the
    [findOrAddId] calls of its frames. *)
Lemma serial_receive_all_table ps : ∀ st st2,
  serial_table st = serial_table st2 →
  serial_table (Serial.receive_all ps st) =
  serial_table (Serial.record_all (frame_ids ps) st2).
Proof.
  induction ps as [|p ps IH]; intros st st2 Heq; [done|].
  rewrite serial_receive_all_cons.
  pose proof (serial_receive_table p st) as Htab.
  destruct p as [|rxId len payload|]; cbn [frame_ids].
  - apply IH. by rewrite Htab.
  - cbn [Serial.record_all fold_left]. apply IH.
    rewrite Htab, serial_findOrAddId_core. by rewrite Heq.
  - apply IH. by rewrite Htab.
Qed.

(** The counters after a run of receive attempts, from any state. *)
Lemma serial_receive_all_counters ps : ∀ st,
  0 ≤ Serial.messageCount st ≤ UINT32_MAX →
  0 ≤ Serial.errorCount st ≤ UINT32_MAX →
  let st' := Serial.receive_all ps st in
  Serial.messageCount st' = u32 (Serial.messageCount st + Z.of_nat (frame_count ps)) ∧
  Serial.errorCount st' = u32 (Serial.errorCount st + Z.of_nat (error_count ps)) ∧
  Serial.currentBaud st' = Serial.currentBaud st ∧
  Serial.startTime st' = Serial.startTime st.
Proof.
  induction ps as [|p ps IH]; intros st Hm He.
  - cbn [Serial.receive_all fold_left].
    change (frame_count []) with 0%nat. change (error_count []) with 0%nat.
    unfold u32, UINT32_MAX in *. split_and!; try done; lia.
  - destruct (serial_receive_counters p st) as (Hm1 & He1 & Hb1 & Ht1).
    assert (frame_count (p :: ps) = (frame_count [p] + frame_count ps)%nat) as ->
      by (unfold frame_count; by destruct p).
    assert (error_count (p :: ps) = (error_count [p] + error_count ps)%nat) as ->
      by (change (p :: ps) with ([p] ++ ps); apply error_count_app).
    destruct (IH (Serial.receive p st)) as (H3 & H4 & H5 & H6).
    + rewrite Hm1. destruct p; simpl; try done; apply u32_range.
    + rewrite He1. destruct p; simpl; try done; apply u32_range.
    + cbv zeta in H3, H4, H5, H6 |- *. rewrite serial_receive_all_cons.
      rewrite H3, H4, H5, H6, Hm1, He1, Hb1, Ht1.
      split_and!; try done;
        destruct p; simpl; unfold frame_count, error_count, u32, UINT32_MAX in *;
        simpl; lia.
Qed.

(** X12. The serial program's receive loop after [clearCounts()]: after
    any polls, [messageCount] is the number of frames read and
    [errorCount] the number of failed reads (both modulo [2^32]), the
    table holds the first 256 distinct 29-bit identifiers of the frames,
    each with the number of frames that carried it, and the bit rate and
    the start time are as [clearCounts()] left them. *)
Theorem serial_receive_counts (now : Z) (ps : list Poll) (st : Serial.State) :
  let st' := Serial.receive_all ps (Serial.clearCounts now st) in
  let ids := frame_ids ps in
  Serial.messageCount st' = u32 (Z.of_nat (frame_count ps)) ∧
  Serial.errorCount st' = u32 (Z.of_nat (error_count ps)) ∧
  held_counts ids (Serial.seenIds st') (Serial.idCounts st')
    (Serial.uniqueIdCount st') ∧
  take (Z.to_nat (Serial.uniqueIdCount st')) (Serial.seenIds st') =
    take 256 (first_seen ids) ∧
  Serial.currentBaud st' = Serial.currentBaud st ∧
  Serial.startTime st' = now.
Proof.
  intros st' ids.
  pose proof (serial_receive_all_table ps (Serial.clearCounts now st)
                (Serial.clearCounts now st) eq_refl) as Htab.
  fold st' in Htab.
  destruct (serial_receive_all_counters ps (Serial.clearCounts now st))
    as (H3 & H4 & H5 & H6); [unfold UINT32_MAX; simpl; lia..|].
  fold st' in H3, H4, H5, H6.
  pose proof (serial_record_all_inv ids [] (Serial.clearCounts now st)) as Hinv.
  destruct (serial_record_all_first_seen ids [] (Serial.clearCounts now st))
    as (_ & _ & Hord); [by simpl|done|done|].
  fold ids in Htab. rewrite <- Htab in Hinv.
  unfold serial_table in Htab. injection Htab as Hs Hc Hn.
  rewrite <- Hs, <- Hn in Hord.
  split_and!; try done.
  apply table_inv_held. apply Hinv. by apply table_inv_reset.
Qed.

Lemma readStringUntil_nl_line line rest :
  Init.Byte.x0a ∉ line →
  Serial.readStringUntil_nl (line ++ Init.Byte.x0a :: rest) = (line, rest).
Proof.
  induction line as [|c line IH]; intros Hnl; simpl.
  - done.
  - apply not_elem_of_cons in Hnl as [Hc Hnl].
    rewrite decide_False by congruence. by rewrite IH.
Qed.

(** X13. The annotation state of the serial program: when no
    annotation is awaited, the character [m] makes the next pass read
    the bytes up to the newline as annotation text. None of these bytes
    is executed as a command: after the two passes the state is the one
    before the [m], the input left is what follows the newline, and the
    line printed is the trimmed text with the elapsed time, or nothing
    when the text trims to empty. *)
Theorem serial_annotation_line (now1 now2 : Z) (bus : can_baud_t → RateTrial)
    (line rest : list byte) (st : Serial.State) :
  Serial.awaitingMark st = false →
  Init.Byte.x0a ∉ line →
  let '(r1, p1, st1) :=
    Serial.serial_input now1 bus
      (Init.Byte.x6d :: line ++ Init.Byte.x0a :: rest) st in
  let '(r2, p2, st2) := Serial.serial_input now2 bus r1 st1 in
  p1 = None ∧ Serial.awaitingMark st1 = true ∧
  r2 = rest ∧ st2 = st ∧
  p2 = if decide (trim line = []) then None
       else Some (u32 (now2 - Serial.startTime st), trim line).
Proof.
  intros Haw Hnl. unfold Serial.serial_input at 1.
  rewrite Haw. cbn [Serial.decode Serial.command].
  unfold Serial.serial_input.
  destruct (line ++ Init.Byte.x0a :: rest) as [|c l] eqn:Hin;
    [by destruct line|].
  cbn [Serial.awaitingMark]. rewrite <- Hin, readStringUntil_nl_line by done.
  split; [done|]. split; [done|]. split; [done|].
  split; [destruct st; simpl in *; by subst|].
  cbn [Serial.startTime]. case_decide as Ht.
  - by rewrite Ht.
  - destruct (trim line); [done|]. done.
Qed.

Lemma serial_annotation_line_witness :
  let line := [Init.Byte.x20; Init.Byte.x63; Init.Byte.x31] in
  let '(r1, p1, st1) :=
    Serial.serial_input 5 (λ _, {| init_ok := true; polls := [] |})
      (Init.Byte.x6d :: line ++ Init.Byte.x0a :: [Init.Byte.x73]) Serial.init in
  let '(r2, p2, st2) :=
    Serial.serial_input 9 (λ _, {| init_ok := true; polls := [] |}) r1 st1 in
  p1 = None ∧ Serial.awaitingMark st1 = true ∧
  r2 = [Init.Byte.x73] ∧ st2 = Serial.init ∧
  p2 = if decide (trim line = []) then None
       else Some (u32 (9 - Serial.startTime Serial.init), trim line).
Proof.
  apply (serial_annotation_line 5 9 (λ _, {| init_ok := true; polls := [] |})
           [Init.Byte.x20; Init.Byte.x63; Init.Byte.x31] [Init.Byte.x73]
           Serial.init).
  - reflexivity.
  - vm_compute. intros H. repeat (apply elem_of_cons in H as [H|H]; [done|]).
    by apply elem_of_nil in H.
Defined.
